(** * cocaine/worker.py: the dispatch / session / liveness engine of a worker

    A shallow embedding of the class [Worker] of [cocaine/worker.py]: its
    constructor, the message dispatcher [on_message], the two timer callbacks
    and the outbound primitives.  The worker is one mutable Python object; it
    is modelled by a record threaded through a state-and-exception monad.
    An exception carries its class, so that [except Exception] catches what
    Python lets it catch, and its text, which [str] may fail to format. *)

From stdpp Require Import base gmap strings list pretty.
From Stdlib Require Import Ascii.

Local Open Scope string_scope.
Local Open Scope list_scope.
Local Open Scope nat_scope.

(** ** Data model *)

(** The payload of a CHUNK message: an opaque byte string. *)
Abbreviation bytes := (list Byte.byte).

(** [asio.message.Message]: the seven RPC operations.  Every message carries
    the id of the session it belongs to; 0 is used for connection-level
    messages.  Session ids are unsigned integers, compared and used as
    dictionary keys only. *)
Inductive Message : Type :=
| RPC_HANDSHAKE (session : N) (uuid : string)
| RPC_HEARTBEAT (session : N)
| RPC_INVOKE (session : N) (event : string)
| RPC_CHUNK (session : N) (data : bytes)
| RPC_CHOKE (session : N)
| RPC_ERROR (session : N) (code : Z) (message : string)
| RPC_TERMINATE (session : N) (reason : Z) (message : string).

(** An exception object: the name of its class, the text it was raised
    with, and whether that text is a [unicode] object or a byte string. *)
Record Exception : Type := exception {
  exc_class : string;
  exc_text : string;
  exc_unicode : bool
}.

(** An exception raised with a byte string. *)
Definition mkException (class text : string) : Exception :=
  exception class text false.

(** [isinstance(err, Exception)]: the classes of the interpreter that stand
    beside [Exception] under [BaseException] are not instances of it.  A
    class that an application derives from [BaseException] directly is not
    told apart here. *)
Definition is_Exception (err : Exception) : bool :=
  bool_decide (exc_class err ∉ ["BaseException"; "SystemExit";
                                "KeyboardInterrupt"; "GeneratorExit"]).

(** Whether every character of a text is below 128. *)
Fixpoint is_ascii_text (text : string) : bool :=
  match text with
  | "" => true
  | String c text' => bool_decide (nat_of_ascii c < 128) && is_ascii_text text'
  end.

Definition RuntimeError (text : string) : Exception := mkException "RuntimeError" text.
Definition RequestError (text : string) : Exception := mkException "RequestError" text.

(** [exit(code)] and [sys.exit(code)] raise [SystemExit]. *)
Definition SystemExit (code : Z) : Exception := mkException "SystemExit" (pretty code).

(** The calls the dispatcher makes on a [Request] object. *)
Inductive RequestCall : Type :=
| Push (data : bytes)
| Close
| Error (err : Exception).

(** The calls a handler makes on the [Stream] object it is given. *)
Inductive StreamCall : Type :=
| StreamWrite (data : bytes)
| StreamClose.

Inductive LogRecord : Type :=
| LogDebug (text : string)
| LogError (text : string).

(** Modelled from the spec: [asio.ev.Timer] is not part of the sources at
    hand.  A timer has a delay and is either disarmed or armed with one
    deadline (section 3: a single armed/disarmed deadline); [start] (re)arms
    it at the service's current time plus the delay, [stop] disarms it. *)
Record Timer : Type := mkTimer { delay : nat; deadline : option nat }.

Definition Timer_start (now : nat) (t : Timer) : Timer :=
  {| delay := delay t; deadline := Some (now + delay t) |}.

Definition Timer_stop (t : Timer) : Timer :=
  {| delay := delay t; deadline := None |}.

Definition armed (t : Timer) : bool := bool_decide (is_Some (deadline t)).

(** The fields of a [Worker] instance.  [requests] is the store of the
    [Request] objects allocated so far: a request is named by its index and
    the store records, per request, the calls it has received, in order; the
    session table holds such names, so two entries may share one object.
    [w_stream] is the sequence of messages written to the peer so far.
    [now] and [stopped] are the state of [self.service], the event loop. *)
Record Worker : Type := mkWorker {
  _logger : list LogRecord;
  id : string;
  endpoint : string;
  sessions : gmap N nat;
  requests : list (list RequestCall);
  now : nat;
  stopped : bool;
  disown_timer : Timer;
  heartbeat_timer : Timer;
  w_stream : list Message
}.

Definition set_logger (f : list LogRecord → list LogRecord) (w : Worker) : Worker :=
  mkWorker (f (_logger w)) (id w) (endpoint w) (sessions w) (requests w) (now w)
           (stopped w) (disown_timer w) (heartbeat_timer w) (w_stream w).

Definition set_sessions (f : gmap N nat → gmap N nat) (w : Worker) : Worker :=
  mkWorker (_logger w) (id w) (endpoint w) (f (sessions w)) (requests w) (now w)
           (stopped w) (disown_timer w) (heartbeat_timer w) (w_stream w).

Definition set_requests (f : list (list RequestCall) → list (list RequestCall))
    (w : Worker) : Worker :=
  mkWorker (_logger w) (id w) (endpoint w) (sessions w) (f (requests w)) (now w)
           (stopped w) (disown_timer w) (heartbeat_timer w) (w_stream w).

Definition set_now (t : nat) (w : Worker) : Worker :=
  mkWorker (_logger w) (id w) (endpoint w) (sessions w) (requests w) t
           (stopped w) (disown_timer w) (heartbeat_timer w) (w_stream w).

Definition set_stopped (b : bool) (w : Worker) : Worker :=
  mkWorker (_logger w) (id w) (endpoint w) (sessions w) (requests w) (now w)
           b (disown_timer w) (heartbeat_timer w) (w_stream w).

Definition set_disown_timer (f : Timer → Timer) (w : Worker) : Worker :=
  mkWorker (_logger w) (id w) (endpoint w) (sessions w) (requests w) (now w)
           (stopped w) (f (disown_timer w)) (heartbeat_timer w) (w_stream w).

Definition set_heartbeat_timer (f : Timer → Timer) (w : Worker) : Worker :=
  mkWorker (_logger w) (id w) (endpoint w) (sessions w) (requests w) (now w)
           (stopped w) (disown_timer w) (f (heartbeat_timer w)) (w_stream w).

Definition set_w_stream (f : list Message → list Message) (w : Worker) : Worker :=
  mkWorker (_logger w) (id w) (endpoint w) (sessions w) (requests w) (now w)
           (stopped w) (disown_timer w) (heartbeat_timer w) (f (w_stream w)).

(** ** The monad of methods: state of the worker, plus exceptions *)

Inductive Outcome (A : Type) : Type :=
| Return (a : A)
| Raise (err : Exception).
Arguments Return {A} a.
Arguments Raise {A} err.

Definition M (A : Type) : Type := Worker → Worker * Outcome A.

#[global] Instance M_ret : MRet M := λ A a w, (w, Return a).

#[global] Instance M_bind : MBind M := λ A B f m w,
  match m w with
  | (w', Return a) => f a w'
  | (w', Raise err) => (w', Raise err)
  end.

Definition raise {A : Type} (err : Exception) : M A := λ w, (w, Raise err).

(** [str(err)], and [err] under [%s]: the text of the exception.  Python 2
    encodes a [unicode] text with the ASCII codec, which raises
    [UnicodeEncodeError] at a character beyond 127.  The text of that error
    names the character and its position; only its reason is kept here. *)
Definition str (err : Exception) : Outcome string :=
  if exc_unicode err && negb (is_ascii_text (exc_text err))
  then Raise (mkException "UnicodeEncodeError" "ordinal not in range(128)")
  else Return (exc_text err).

(** [str(err)] inside a method. *)
Definition formatted (err : Exception) : M string := λ w, (w, str err).

(** [try: body / except Exception as err: handler err].  What the body did
    to the worker before it raised stays done.  An exception that is not an
    instance of [Exception] is not caught, and an exception of the handler
    leaves the statement. *)
Definition try_except {A : Type} (body : M A) (handler : Exception → M A) : M A :=
  λ w, match body w with
       | (w', Return a) => (w', Return a)
       | (w', Raise err) =>
           if is_Exception err then handler err w' else (w', Raise err)
       end.

Definition gets {A : Type} (f : Worker → A) : M A := λ w, (w, Return (f w)).
Definition modify (f : Worker → Worker) : M unit := λ w, (f w, Return tt).

(** A [for] loop whose body is a method call. *)
Fixpoint for_each {A : Type} (body : A → M unit) (l : list A) : M unit :=
  match l with
  | [] => mret tt
  | a :: l' => body a;; for_each body l'
  end.

(** ** The worker *)

(** [list.index(x)]: the position of the first occurrence; [None] stands for
    the [ValueError] raised when there is none. *)
Fixpoint index (x : string) (l : list string) : option nat :=
  match l with
  | [] => None
  | y :: l' => if decide (y = x) then Some 0 else S <$> index x l'
  end.

(** [init_args[init_args.index(flag) + 1]]; [None] stands for the
    [ValueError] or [IndexError] the expression raises. *)
Definition flag_value (flag : string) (init_args : list string) : option string :=
  i ← index flag init_args; init_args !! (i + 1).

(** [_init_endpoint] gives the pair of [self.id] and [self.endpoint].  The
    application name is looked up as well and must be there. *)
Definition _init_endpoint (init_args : list string) : Outcome (string * string) :=
  match flag_value "--uuid" init_args,
        flag_value "--app" init_args,
        flag_value "--endpoint" init_args with
  | Some uuid, Some app_name, Some endpoint => Return (uuid, endpoint)
  | _, _, _ => Raise (RuntimeError "Wrong cmdline arguments")
  end.

Definition logger_debug (text : string) : M unit :=
  modify (set_logger (λ l, l ++ [LogDebug text])).

Definition logger_error (text : string) : M unit :=
  modify (set_logger (λ l, l ++ [LogError text])).

(** [self.w_stream.write(msg.pack())] *)
Definition w_stream_write (msg : Message) : M unit :=
  modify (set_w_stream (λ l, l ++ [msg])).

(** Modelled from the spec: [asio.ev.Service.stop] is not part of the
    sources at hand; it stops the loop, which is recorded in [stopped]. *)
Definition service_stop : M unit := modify (set_stopped true).

Definition disown_timer_start : M unit :=
  modify (λ w, set_disown_timer (Timer_start (now w)) w).

Definition disown_timer_stop : M unit :=
  modify (set_disown_timer Timer_stop).

Definition heartbeat_timer_start : M unit :=
  modify (λ w, set_heartbeat_timer (Timer_start (now w)) w).

Definition terminate (reason : Z) (msg : string) : M unit :=
  w_stream_write (RPC_TERMINATE 0 reason msg);;
  service_stop.

Definition _send_handshake : M unit :=
  uuid ← gets id;
  w_stream_write (RPC_HANDSHAKE 0 uuid).

Definition _send_heartbeat : M unit :=
  disown_timer_start;;
  w_stream_write (RPC_HEARTBEAT 0).

Definition send_choke (session : N) : M unit :=
  w_stream_write (RPC_CHOKE session).

Definition send_chunk (session : N) (data : bytes) : M unit :=
  w_stream_write (RPC_CHUNK session data).

Definition on_heartbeat : M unit := _send_heartbeat.

Definition on_disown : M unit :=
  logger_error "Disowned";;
  service_stop.

(** [Request()]: a new object, which has received no call yet. *)
Definition Request_new : M nat :=
  λ w, (set_requests (λ l, l ++ [[]]) w, Return (length (requests w))).

(** Modelled from the spec: [cocaine.sessioncontext.Stream] is not part of
    the sources at hand.  A stream is bound to its session id and to the
    worker, and its two operations are routed through [send_chunk] and
    [send_choke] (section 6, stream-side contract). *)
Definition Stream_call (session : N) (c : StreamCall) : M unit :=
  match c with
  | StreamWrite data => send_chunk session data
  | StreamClose => send_choke session
  end.

(** The message a call on the stream of session [session] puts on the wire. *)
Definition stream_message (session : N) (c : StreamCall) : Message :=
  match c with
  | StreamWrite data => RPC_CHUNK session data
  | StreamClose => RPC_CHOKE session
  end.

Section Worker.

(** The handler registry and the request objects are external.  What a
    handler does while [Sandbox.invoke] runs is given by an oracle: the
    calls it makes on its stream, and the exception it ends with, if any
    (a failed lookup of the event is such an exception).  What a request
    does with a call is given by a second oracle: whether the call raises,
    from the calls the request received before. *)
Variable sandbox : string → nat → N → list StreamCall * option Exception.
Variable request_raises : nat → list RequestCall → RequestCall → option Exception.

(** [self.sandbox.invoke(event, _request, _stream)] *)
Definition Sandbox_invoke (event : string) (_request : nat) (session : N) : M unit :=
  for_each (Stream_call session) (sandbox event _request session).1;;
  match (sandbox event _request session).2 with
  | Some err => raise err
  | None => mret tt
  end.

(** [_session.push(data)], [_session.close()] and [_session.error(err)]:
    the request receives the call, and the call may raise. *)
Definition Request_call (_session : nat) (c : RequestCall) : M unit :=
  λ w, let received := default [] (requests w !! _session) in
       (set_requests (<[_session := received ++ [c]]>) w,
        match request_raises _session received c with
        | Some err => Raise err
        | None => Return tt
        end).

(** The argument is the result of [Message.initialize(args)]: [None] for
    what it rejects. *)
Definition on_message (msg : option Message) : M unit :=
  match msg with
  | None => mret tt
  | Some (RPC_INVOKE session event) =>
      try_except
        (_request ← Request_new;
         Sandbox_invoke event _request session;;
         modify (set_sessions (<[session := _request]>)))
        (λ err, text ← formatted err;
                logger_error ("On invoke error: " +:+ text))
  | Some (RPC_CHUNK session data) =>
      logger_debug ("Receive chunk: " +:+ pretty session);;
      _session ← gets (λ w, sessions w !! session);
      match _session with
      | Some r =>
          try_except
            (Request_call r (Push data))
            (λ err, text ← formatted err;
                    logger_error ("On push error: " +:+ text))
      | None => mret tt
      end
  | Some (RPC_CHOKE session) =>
      logger_debug ("Receive choke: " +:+ pretty session);;
      _session ← gets (λ w, sessions w !! session);
      match _session with
      | Some r =>
          Request_call r Close;;
          modify (set_sessions (delete session))
      | None => mret tt
      end
  | Some (RPC_HEARTBEAT _) =>
      disown_timer_stop
  | Some (RPC_TERMINATE _ reason message) =>
      logger_debug ("Receive terminate. Reason: " +:+ pretty reason
                    +:+ ", message: " +:+ message +:+ " ");;
      terminate reason message
  | Some (RPC_ERROR session _ message) =>
      _session ← gets (λ w, sessions w !! session);
      match _session with
      | Some r => Request_call r (Error (RequestError message))
      | None => mret tt
      end
  | Some (RPC_HANDSHAKE _ _) => mret tt
  end.

(** The worker once the handler of an INVOKE has run, a shorthand of the
    statements below: the request is allocated and what the handler
    wrote is on the wire. *)
Definition invoked (session : N) (event : string) (w : Worker) : Worker :=
  set_w_stream
    (λ l, l ++ map (stream_message session)
                   (sandbox event (length (requests w)) session).1)
    (set_requests (λ l, l ++ [[]]) w).

End Worker.

(** What an [except Exception as err] clause that logs [prefix % err] as an
    error makes of an exception, a shorthand of the statements below: the
    line is logged when the exception is caught and its text formats. *)
Definition handled (prefix : string) (err : Exception) (w : Worker)
  : Worker * Outcome unit :=
  if is_Exception err then
    match str err with
    | Return text => (set_logger (λ l, l ++ [LogError (prefix +:+ text)]) w, Return tt)
    | Raise err' => (w, Raise err')
    end
  else (w, Raise err).

(** Nothing but the log differs between [w] and [w']. *)
Definition only_logged (w w' : Worker) : Prop :=
  w' = set_logger (λ _, _logger w') w.

(** Every entry of the session table names a request of the store. *)
Definition sessions_allocated (w : Worker) : Prop :=
  ∀ s r, sessions w !! s = Some r → r < length (requests w).

(** [Worker.__init__], run when the clock of the service shows [t0].
    [new_worker] is the object once its fields are set and the two timers
    are created, with delays 2 and 5; [start_timers] starts them, the disown
    timer first; [announce] is the end of the constructor, where the
    handshake is logged and written.  Binding the pipe, the decoder and the
    streams in between changes none of the fields. *)
Definition new_worker (uuid endpoint : string) (t0 : nat) : Worker :=
  {| _logger := []; id := uuid; endpoint := endpoint;
     sessions := ∅; requests := [];
     now := t0; stopped := false;
     disown_timer := mkTimer 2 None;
     heartbeat_timer := mkTimer 5 None;
     w_stream := [] |}.

Definition start_timers : M unit :=
  disown_timer_start;;
  heartbeat_timer_start.

Definition announce : M unit :=
  uuid ← gets id;
  logger_debug ("Worker with " +:+ uuid +:+ " send handshake");;
  _send_handshake.

Definition __init__ (init_args : list string) (t0 : nat) : Outcome Worker :=
  match _init_endpoint init_args with
  | Raise err => Raise err
  | Return (uuid, endpoint) =>
      Return ((start_timers;; announce) (new_worker uuid endpoint t0)).1
  end.

(** ** The event loop *)

Inductive TimerName : Type :=
| the_disown_timer
| the_heartbeat_timer.

(** What the loop waits for: the transport becomes readable and gives a
    chunk of bytes, here the complete messages the decoder finds in it, or a
    timer fires. *)
Inductive Event : Type :=
| Readable (chunk : list (option Message))
| Fired (timer : TimerName).

(** The public methods and callbacks of the worker, as its collaborators
    call them: the decoder, the timers, and the streams of the handlers. *)
Inductive Method : Type :=
| call_on_message (msg : option Message)
| call_on_heartbeat
| call_on_disown
| call_terminate (reason : Z) (msg : string)
| call_send_choke (session : N)
| call_send_chunk (session : N) (data : bytes).

Definition is_heartbeat_send (m : Method) : bool :=
  match m with
  | call_on_heartbeat => true
  | _ => false
  end.

Definition is_handshake (msg : Message) : bool :=
  match msg with
  | RPC_HANDSHAKE _ _ => true
  | _ => false
  end.

Section Service.

Variable sandbox : string → nat → N → list StreamCall * option Exception.
Variable request_raises : nat → list RequestCall → RequestCall → option Exception.

(** The callbacks the constructor gives to the two timers. *)
Definition callback (timer : TimerName) : M unit :=
  match timer with
  | the_disown_timer => on_disown
  | the_heartbeat_timer => on_heartbeat
  end.

(** Modelled from the spec: [asio.stream.Decoder] is not part of the
    sources at hand.  [decode] is bound to [on_message]; a call of it may
    yield zero, one or many complete messages, each delivered to
    [on_message] before the scan goes on (section 4.1).  The decoder has no
    state but its buffer, and an exception of [on_message] leaves the scan. *)
Definition Decoder_decode (chunk : list (option Message)) : M unit :=
  for_each (on_message sandbox request_raises) chunk.

Definition handle (ev : Event) : M unit :=
  match ev with
  | Readable chunk => Decoder_decode chunk
  | Fired timer => callback timer
  end.

(** Modelled from the spec: [asio.ev.Service.run] is not part of the
    sources at hand.  The loop takes the events in their order of arrival
    and hands each to the worker, until it is stopped (section 5: teardown
    stops the reactor); an exception that escapes a callback ends the
    loop. *)
Fixpoint service_run (events : list Event) : M unit :=
  match events with
  | [] => mret tt
  | ev :: events' =>
      halt ← gets stopped;
      if halt : bool then mret tt
      else handle ev;; service_run events'
  end.

(** Modelled from the spec: the timers inside the loop (section 4.2).  The
    armed timer with the earliest deadline fires next. *)
Definition next_timer (w : Worker) : option (nat * TimerName) :=
  match deadline (disown_timer w), deadline (heartbeat_timer w) with
  | Some d, Some h =>
      if decide (d ≤ h) then Some (d, the_disown_timer)
      else Some (h, the_heartbeat_timer)
  | Some d, None => Some (d, the_disown_timer)
  | None, Some h => Some (h, the_heartbeat_timer)
  | None, None => None
  end.

(** Modelled from the spec: a timer fires when the clock reaches its
    deadline.  The disown timer is one-shot per arming, so it is disarmed as
    it fires; the heartbeat timer is periodic, so it is armed again for its
    next period; then the callback given to the timer runs. *)
Definition fire (t : nat) (timer : TimerName) : M unit :=
  modify (λ w, set_now (now w `max` t) w);;
  match timer with
  | the_disown_timer => disown_timer_stop
  | the_heartbeat_timer => heartbeat_timer_start
  end;;
  callback timer.

(** Modelled from the spec: the loop while the peer is silent, so that
    only timers wake it up.  Each turn of the loop takes one unit of
    [fuel]; the loop ends when it is stopped or no timer is armed. *)
Fixpoint service_run_idle (fuel : nat) : M unit :=
  match fuel with
  | 0 => mret tt
  | S fuel' =>
      halt ← gets stopped;
      if halt : bool then mret tt
      else
        next ← gets next_timer;
        match next with
        | None => mret tt
        | Some (t, timer) => fire t timer;; service_run_idle fuel'
        end
  end.

Definition call (m : Method) : M unit :=
  match m with
  | call_on_message msg => on_message sandbox request_raises msg
  | call_on_heartbeat => on_heartbeat
  | call_on_disown => on_disown
  | call_terminate reason msg => terminate reason msg
  | call_send_choke session => send_choke session
  | call_send_chunk session data => send_chunk session data
  end.

(** The worker after a series of calls, each made when the clock shows the
    given time.  A call that raises leaves the worker as it was at the
    raise, and later calls find it so. *)
Fixpoint calls (cs : list (nat * Method)) (w : Worker) : Worker :=
  match cs with
  | [] => w
  | (t, m) :: cs' => calls cs' (call m (set_now t w)).1
  end.

End Service.

(** ** Collaborators for the examples *)

(** A registry that knows the event ["e"]: its handler writes one chunk and
    closes its stream.  Any other event is a failed lookup. *)
Definition example_sandbox (event : string) (_request : nat) (session : N)
  : list StreamCall * option Exception :=
  if decide (event = "e") then ([StreamWrite [Byte.x6f; Byte.x6b]; StreamClose], None)
  else ([], Some (mkException "KeyError" event)).


(** Requests that accept every call. *)
Definition sound_request (r : nat) (received : list RequestCall) (c : RequestCall)
  : option Exception := None.

(** Requests that refuse every call. *)
Definition broken_request (r : nat) (received : list RequestCall) (c : RequestCall)
  : option Exception := Some (mkException "IOError" "request is gone").

Definition example_args : list string :=
  ["worker"; "--uuid"; "u-1"; "--app"; "app"; "--endpoint"; "/tmp/sock"].

Definition example_worker : Worker := new_worker "u-1" "/tmp/sock" 0.

(** The example worker once session 7 is registered, with request 0. *)
Definition serving_worker : Worker :=
  (on_message example_sandbox sound_request (Some (RPC_INVOKE 7 "e")) example_worker).1.

(** * cocaine/tools/actions/app.py: where [LocalUpload] finds the manifest *)

Definition ToolsError (text : string) : Exception := mkException "ToolsError" text.

(** The double quote, as the character of a message. *)
Definition dquote : string := String "034"%char "".

(** [s.startswith('/')] and [s.endswith('/')] *)
Definition startswith_slash (s : string) : bool := String.prefix "/" s.

Fixpoint endswith_slash (s : string) : bool :=
  match s with
  | "" => false
  | String c "" => bool_decide (c = "/"%char)
  | String _ s' => endswith_slash s'
  end.

(** [os.path.join(a, b)] of [posixpath]: an absolute [b] replaces [a]; a
    slash is put between the two unless [a] is empty or ends with one. *)
Definition os_path_join (a b : string) : string :=
  if startswith_slash b then b
  else if bool_decide (a = "") || endswith_slash a then a +:+ b
  else a +:+ "/" +:+ b.

(** [os.path.basename(p)] of [posixpath]: what follows the last slash. *)
Fixpoint basename_from (segment p : string) : string :=
  match p with
  | "" => segment
  | String c p' =>
      if bool_decide (c = "/"%char) then basename_from "" p'
      else basename_from (segment +:+ String c "") p'
  end.

Definition os_path_basename (p : string) : string := basename_from "" p.

(** The priority of a manifest, as in lines 201-205: 1, plus 100 in the
    directory of the application itself, plus 10 for [manifest.json]. *)
Definition manifest_priority (path root fileName : string) : nat :=
  1 + (if bool_decide (root = path) then 100 else 0)
    + (if bool_decide (fileName = "manifest.json") then 10 else 0).

(** The two nested [for] loops of lines 198-206 over the triples
    [(root, dirNames, fileNames)] that [os.walk(self.path)] yields: the
    list [manifests] they build, in the order of the [append]s. *)
Definition found_manifests
    (path : string) (walked : list (string * list string * list string))
  : list (string * nat) :=
  flat_map
    (λ '(root, dirNames, fileNames),
       flat_map
         (λ fileName,
            if String.prefix "manifest" fileName
            then [(os_path_join root fileName, manifest_priority path root fileName)]
            else [])
         fileNames)
    walked.

(** [sorted(manifests, key=lambda manifest: manifest[1], reverse=True)]:
    Python's sort is stable, also with [reverse=True], so elements with
    equal keys keep their order.  An element goes in right after the
    elements whose key is greater than its own. *)
Fixpoint insert_by_priority (m : string * nat) (l : list (string * nat))
  : list (string * nat) :=
  match l with
  | [] => [m]
  | m' :: l' =>
      if decide (m.2 < m'.2) then m' :: insert_by_priority m l'
      else m :: m' :: l'
  end.

Fixpoint sorted_by_priority (l : list (string * nat)) : list (string * nat) :=
  match l with
  | [] => []
  | m :: l' => insert_by_priority m (sorted_by_priority l')
  end.

Section LocalUpload.

(** The file system is external: [os.path.abspath], which depends on the
    working directory, and the triples [os.walk] yields for a directory. *)
Variable os_path_abspath : string → string.
Variable os_walk : string → list (string * list string * list string).

(** [LocalUpload._doMagic] up to line 213, for [self.name] and [self.path]
    as the constructor sets them ([None] is a name that was not given): the
    name of the application and the absolute path of the manifest that the
    rest of the method packs and uploads. *)
Definition LocalUpload_locate (name : option string) (path : string)
  : Outcome (string * string) :=
  let name :=
    match name with
    | None => os_path_basename (os_path_abspath path)
    | Some given => given
    end in
  if bool_decide (name = "") then
    Raise (ToolsError ("Application has not valid name: " +:+ dquote +:+ name +:+ dquote))
  else
    let manifests := sorted_by_priority (found_manifests path (os_walk path)) in
    match manifests with
    | [] =>
        Raise (ToolsError ("No manifest file found in " +:+ dquote
                           +:+ os_path_abspath path +:+ dquote
                           +:+ " or subdirectories"))
    | (manifest, priority) :: _ => Return (name, os_path_abspath manifest)
    end.

End LocalUpload.

(** * cocaine/tools/actions/app.py: the name [UploadRemote] takes from the URL *)

(** The regular expressions of Python's [re] that the pattern of line 243
    is made of. *)
Inductive Regex : Type :=
| re_begin
| re_end
| re_char (c : ascii)
| re_dot_star (greedy : bool)
| re_seq (r1 r2 : Regex)
| re_group (name : string) (r : Regex)
| re_opt (r : Regex).

Definition newline : ascii := "010"%char.

(** The text between two positions of the subject, each given by what is
    left of the subject from there. *)
Definition consumed (s s' : string) : string :=
  String.substring 0 (String.length s - String.length s') s.

(** [.*]: as many characters as possible, none of them a newline, giving
    them back one by one while what follows does not match. *)
Fixpoint dot_star_greedy {A : Type} (s : string) (k : string → option A) : option A :=
  match s with
  | "" => k s
  | String c s' =>
      if bool_decide (c = newline) then k s
      else match dot_star_greedy s' k with
           | Some a => Some a
           | None => k s
           end
  end.

(** [.*?]: as few characters as possible, taking one more, not a newline,
    while what follows does not match. *)
Fixpoint dot_star_lazy {A : Type} (s : string) (k : string → option A) : option A :=
  match k s with
  | Some a => Some a
  | None =>
      match s with
      | "" => None
      | String c s' =>
          if bool_decide (c = newline) then None else dot_star_lazy s' k
      end
  end.

(** The backtracking matcher of [re], in continuation-passing style: [s] is
    what is left of the subject, [groups] the groups captured so far, and
    [k] tries what follows in the pattern.  The alternatives are tried in
    the order of [re]; the first that lets the rest match is taken.  [^]
    matches at the start of the subject; [$] at its end and before a
    newline that ends it; a group records the text it matched. *)
Fixpoint re_match (subject : string) (r : Regex) (s : string)
    (groups : gmap string string)
    (k : string → gmap string string → option (gmap string string))
  : option (gmap string string) :=
  match r with
  | re_begin => if bool_decide (s = subject) then k s groups else None
  | re_end =>
      if bool_decide (s = "" ∨ s = String newline "") then k s groups else None
  | re_char c =>
      match s with
      | String c' s' => if bool_decide (c' = c) then k s' groups else None
      | "" => None
      end
  | re_dot_star true => dot_star_greedy s (λ s', k s' groups)
  | re_dot_star false => dot_star_lazy s (λ s', k s' groups)
  | re_seq r1 r2 =>
      re_match subject r1 s groups (λ s' groups', re_match subject r2 s' groups' k)
  | re_group name r =>
      re_match subject r s groups
        (λ s' groups', k s' (<[name := consumed s s']> groups'))
  | re_opt r =>
      match re_match subject r s groups k with
      | Some groups' => Some groups'
      | None => k s groups
      end
  end.

(** [rx.match(subject)]: the groups of the match, if the pattern matches at
    the start of the subject. *)
Definition rx_match (rx : Regex) (subject : string) : option (gmap string string) :=
  re_match subject rx subject ∅ (λ _ groups, Some groups).

(** The pattern compiled in line 243: the start of the subject, a greedy
    [.*], a slash, the group [name] around a lazy [.*?], an optional second
    group around a dot and a greedy [.*], and the end of the subject.  The
    second group has no name and is recorded under its number. *)
Definition name_rx : Regex :=
  re_seq re_begin
    (re_seq (re_dot_star true)
       (re_seq (re_char "/")
          (re_seq (re_group "name" (re_dot_star false))
             (re_seq (re_opt (re_group "2" (re_seq (re_char ".") (re_dot_star true))))
                re_end)))).

Definition ValueError (text : string) : Exception := mkException "ValueError" text.
Definition AttributeError (text : string) : Exception := mkException "AttributeError" text.

(** [UploadRemote.__init__] for the [name] and [url] of its configuration,
    [None] when the key is missing: the [self.name] and [self.url] it sets.
    [match.group] on the [None] of a failed match is an [AttributeError]. *)
Definition UploadRemote_init (name url : option string) : Outcome (string * string) :=
  match url with
  | None | Some "" => Raise (ValueError "Please specify repository URL")
  | Some url =>
      match name with
      | None | Some "" =>
          match rx_match name_rx url with
          | None =>
              Raise (AttributeError "'NoneType' object has no attribute 'group'")
          | Some groups => Return (default "" (groups !! "name"), url)
          end
      | Some name => Return (name, url)
      end
  end.

(** The text before the first dot of [s], all of [s] when it has none. *)
Fixpoint before_dot (s : string) : string :=
  match s with
  | "" => ""
  | String c s' => if bool_decide (c = "."%char) then "" else String c (before_dot s')
  end.

(** Whether [c] occurs in [s]. *)
Fixpoint has_char (c : ascii) (s : string) : bool :=
  match s with
  | "" => false
  | String c' s' => bool_decide (c' = c) || has_char c s'
  end.

(** * cocaine/tools/actions/proxy.py: [Stop] *)

(** What the [try] block that reads the pid file ends with: the [IOError]
    of [open] or [read], the [ValueError] of [int], or the pid. *)
Inductive PidRead : Type :=
| PidIOError
| PidValueError (err : Exception)
| PidRead_ok (pid : Z).

(** A line of [cocaine.tools.log]. *)
Inductive ProxyLog : Type :=
| log_info (text : string)
| log_error (text : string).

(** [isinstance(err, OSError)] *)
Definition is_OSError (err : Exception) : bool :=
  bool_decide (exc_class err = "OSError").

(** [err.find(sub)]: the lowest index of [sub] in [err], or -1. *)
Definition find (err sub : string) : Z :=
  match String.index 0 sub err with
  | Some i => Z.of_nat i
  | None => -1
  end.

(** What a run of [execute] did: the lines it logged, the number of calls
    of [os.kill] it made, whether it removed the pid file, and how it ended. *)
Record ProxyRun : Type := mkProxyRun {
  logged : list ProxyLog;
  kills : nat;
  removed : bool;
  ended : Outcome unit
}.

Section Proxy.

(** The operating system is external: what reading the pid file gives; the
    exception the [n]-th call of [os.kill] raises, if it raises one, an
    [OSError] of the system or, for a pid that does not fit a C integer, an
    [OverflowError]; whether the pid file exists when [Stop] looks for it;
    and the exception [os.remove] raises, if it raises one. *)
Variable read_pidfile : PidRead.
Variable os_kill : nat → option Exception.
Variable pidfile_exists : bool.
Variable os_remove : option Exception.

(** The [while] loop of [Stop.execute].  [elapsed] counts in steps of 0.5,
    the only values the variable takes, and the loop runs while it is below
    30.0, that is for at most [remaining] = 60 more steps.  The result is
    the number of calls of [os.kill] made and the exception that left the
    loop, if one did. *)
Fixpoint Stop_loop (remaining elapsed : nat) : nat * option Exception :=
  match remaining with
  | 0 => (elapsed, None)
  | S remaining' =>
      match os_kill elapsed with
      | Some err => (S elapsed, Some err)
      | None => Stop_loop remaining' (S elapsed)
      end
  end.

(** [Stop.execute].  The [ValueError] of [int] is not caught; a pid that is
    [None] or 0 ends in [exit(1)].  Around the loop only an [OSError] is
    caught; what its handler raises, the error of [str] or of [os.remove]
    or the [SystemExit] of [exit(1)], leaves [execute]. *)
Definition Stop_execute : ProxyRun :=
  let start := [log_info "Stopping cocaine proxy... "] in
  match read_pidfile with
  | PidValueError err => mkProxyRun start 0 false (Raise err)
  | PidIOError | PidRead_ok 0 =>
      mkProxyRun
        (start ++ [log_error "FAIL"; log_error "Cocaine proxy is not running"])
        0 false (Raise (SystemExit 1))
  | PidRead_ok _ =>
      match Stop_loop 60 0 with
      | (n, None) => mkProxyRun start n false (Return tt)
      | (n, Some err) =>
          if is_OSError err then
            match str err with
            | Raise err' => mkProxyRun start n false (Raise err')
            | Return text =>
                if bool_decide (0 < find text "No such process")%Z then
                  if pidfile_exists then
                    match os_remove with
                    | Some err' => mkProxyRun start n false (Raise err')
                    | None =>
                        mkProxyRun (start ++ [log_info "OK"]) n true (Return tt)
                    end
                  else mkProxyRun (start ++ [log_info "OK"]) n false (Return tt)
                else
                  mkProxyRun (start ++ [log_error "FAIL"; log_error text]) n false
                             (Raise (SystemExit 1))
            end
          else mkProxyRun start n false (Raise err)
      end
  end.

(** The conditions under which [Stop] gets to log [OK], on what the system
    answers alone: a pid that is not zero; a first call of [os.kill] that
    raises, one of the 60, and raises an [OSError] whose text formats and
    has [No such process] in it, but not at its start; and a pid file that
    is not there or that [os.remove] removes. *)
Definition process_found_gone (k : nat) : Prop :=
  ∃ pid err text,
    read_pidfile = PidRead_ok pid
    ∧ pid ≠ 0%Z
    ∧ k < 60
    ∧ (∀ j, j < k → os_kill j = None)
    ∧ os_kill k = Some err
    ∧ is_OSError err = true
    ∧ str err = Return text
    ∧ (0 < find text "No such process")%Z
    ∧ (pidfile_exists = true → os_remove = None).

End Proxy.

(** ** A directory for the examples *)

(** The working directory is [/srv]. *)
Definition example_abspath (p : string) : string :=
  if startswith_slash p then p else "/srv/" +:+ p.

(** The application directory holds a manifest for development next to
    [manifest.json], and a [manifest.json] one level below. *)
Definition example_walk (path : string) : list (string * list string * list string) :=
  [(path, ["conf"], ["README"; "manifest-dev.json"; "manifest.json"]);
   (os_path_join path "conf", [], ["manifest.json"])].

(** A process that is gone when the third signal is sent. *)
Definition gone_at_third_signal (n : nat) : option Exception :=
  if decide (n < 2) then None
  else Some (mkException "OSError" "[Errno 3] No such process").

(** A directory without any manifest. *)
Definition bare_walk (path : string) : list (string * list string * list string) :=
  [(path, [], ["README"; "main.py"])].

(** ** Predicates of the further statements *)

(** The session whose request a message is delivered to: the CHUNK, CHOKE
    and ERROR rules look their session up and call its request. *)
Definition delivered_to (msg : option Message) : option N :=
  match msg with
  | Some (RPC_CHUNK session _) => Some session
  | Some (RPC_CHOKE session) => Some session
  | Some (RPC_ERROR session _ _) => Some session
  | _ => None
  end.

(** No request is shared by two entries of the session table. *)
Definition sessions_distinct (w : Worker) : Prop :=
  ∀ s1 s2 r, sessions w !! s1 = Some r → sessions w !! s2 = Some r → s1 = s2.

(** The messages the methods of the worker put on the wire once it is
    built: heartbeats and terminations of session 0, and the chunks and
    chokes of the streams. *)
Definition written_after_handshake (msg : Message) : bool :=
  match msg with
  | RPC_HEARTBEAT 0 => true
  | RPC_TERMINATE 0 _ _ => true
  | RPC_CHUNK _ _ => true
  | RPC_CHOKE _ => true
  | _ => false
  end.

(** * Properties *)

(** ** Equations of the methods *)

Ltac unfold_monad :=
  unfold try_except, formatted, mbind, M_bind, mret, M_ret, gets, modify, raise.

(** The cases of an [except Exception] clause: whether the exception is
    caught, and whether its text formats. *)
Ltac case_except :=
  unfold handled;
  repeat (first [destruct (is_Exception _) | destruct (str _)]; simpl).

Lemma set_w_stream_nil (w : Worker) : set_w_stream (λ l, l ++ []) w = w.
Proof. destruct w; unfold set_w_stream; simpl. by rewrite app_nil_r. Qed.

Lemma set_w_stream_app (w : Worker) (l1 l2 : list Message) :
  set_w_stream (λ l, l ++ l2) (set_w_stream (λ l, l ++ l1) w)
  = set_w_stream (λ l, l ++ (l1 ++ l2)) w.
Proof. destruct w; unfold set_w_stream; simpl. by rewrite app_assoc. Qed.

Lemma for_each_Stream_call (session : N) (cs : list StreamCall) (w : Worker) :
  for_each (Stream_call session) cs w
  = (set_w_stream (λ l, l ++ map (stream_message session) cs) w, Return tt).
Proof.
  revert w; induction cs as [|c cs IH]; intros w; simpl.
  - by rewrite set_w_stream_nil.
  - unfold mbind, M_bind.
    assert (Stream_call session c w
            = (set_w_stream (λ l, l ++ [stream_message session c]) w, Return tt)) as ->
      by (by destruct c).
    by rewrite IH, set_w_stream_app.
Qed.

Section Dispatcher.

Variable sandbox : string → nat → N → list StreamCall * option Exception.
Variable request_raises : nat → list RequestCall → RequestCall → option Exception.

Local Abbreviation on_message := (on_message sandbox request_raises).
Local Abbreviation invoked := (invoked sandbox).
Local Abbreviation service_run := (service_run sandbox request_raises).
Local Abbreviation Decoder_decode := (Decoder_decode sandbox request_raises).
Local Abbreviation call := (call sandbox request_raises).
Local Abbreviation calls := (calls sandbox request_raises).

Lemma on_message_invoke (session : N) (event : string) (w : Worker) :
  on_message (Some (RPC_INVOKE session event)) w
  = match (sandbox event (length (requests w)) session).2 with
    | None =>
        (set_sessions (<[session := length (requests w)]>) (invoked session event w),
         Return tt)
    | Some err => handled "On invoke error: " err (invoked session event w)
    end.
Proof.
  unfold on_message, Sandbox_invoke, Request_new, invoked, handled. unfold_monad.
  rewrite for_each_Stream_call.
  destruct (sandbox event (length (requests w)) session).2 as [err|]; [|done].
  destruct (is_Exception err); [|done]. by destruct (str err).
Qed.


Ltac unfold_methods :=
  unfold call, on_heartbeat, on_disown, terminate, _send_heartbeat, _send_handshake,
    send_choke, send_chunk, Request_call, logger_debug, logger_error,
    w_stream_write, service_stop, disown_timer_stop, disown_timer_start,
    heartbeat_timer_start;
  unfold_monad.

Lemma on_message_sessions (msg : option Message) (w : Worker) :
  sessions (on_message msg w).1
  = match msg with
    | Some (RPC_INVOKE session event) =>
        match (sandbox event (length (requests w)) session).2 with
        | None => <[session := length (requests w)]> (sessions w)
        | Some _ => sessions w
        end
    | Some (RPC_CHOKE session) =>
        match sessions w !! session with
        | Some r =>
            match request_raises r (default [] (requests w !! r)) Close with
            | None => delete session (sessions w)
            | Some _ => sessions w
            end
        | None => sessions w
        end
    | _ => sessions w
    end.
Proof.
  destruct msg as [[s u|s|s e|s d|s|s c t|s r t]|]; try reflexivity.
  - rewrite on_message_invoke.
    destruct (sandbox e (length (requests w)) s).2; case_except; done.
  - unfold on_message; unfold_methods; simpl.
    destruct (sessions w !! s) as [r|]; simpl; [|done].
    destruct (request_raises r _ (Push d)); simpl; case_except; done.
  - unfold on_message; unfold_methods; simpl.
    destruct (sessions w !! s) as [r|]; simpl; [|done].
    by destruct (request_raises r (default [] (requests w !! r)) Close).
  - unfold on_message; unfold_methods; simpl.
    by destruct (sessions w !! s) as [r|].
Qed.

(** ** The life of a session *)

Lemma on_message_chunk_registered
    (w : Worker) (s : N) (d : bytes) (r : nat) (received : list RequestCall) :
  sessions w !! s = Some r →
  requests w !! r = Some received →
  request_raises r received (Push d) = None →
  on_message (Some (RPC_CHUNK s d)) w
  = (set_requests (<[r := received ++ [Push d]]>)
       (set_logger (λ l, l ++ [LogDebug ("Receive chunk: " +:+ pretty s)]) w),
     Return tt).
Proof.
  intros Hs Hr Hok. unfold on_message; unfold_methods; simpl.
  rewrite Hs; simpl. rewrite Hr; simpl. by rewrite Hok.
Qed.

Lemma on_message_choke_registered
    (w : Worker) (s : N) (r : nat) (received : list RequestCall) :
  sessions w !! s = Some r →
  requests w !! r = Some received →
  request_raises r received Close = None →
  on_message (Some (RPC_CHOKE s)) w
  = (set_sessions (delete s)
       (set_requests (<[r := received ++ [Close]]>)
          (set_logger (λ l, l ++ [LogDebug ("Receive choke: " +:+ pretty s)]) w)),
     Return tt).
Proof.
  intros Hs Hr Hok. unfold on_message; unfold_methods; simpl.
  rewrite Hs; simpl. rewrite Hr; simpl. by rewrite Hok.
Qed.

(** C1. INVOKE, CHUNK and CHOKE of one session, dispatched in this order to
    a worker whose registry succeeds on the event and whose new request
    raises on no call: each of the three is handled without an exception,
    the request handed to the handler is registered by the INVOKE, it has
    received exactly [push(d)] and then [close()] in the end, and the
    session id is absent from the session table in the end. *)
Theorem invoke_chunk_choke (w : Worker) (s : N) (e : string) (d : bytes) :
  let r := length (requests w) in
  (sandbox e r s).2 = None →
  (∀ received c, request_raises r received c = None) →
  ∃ w1 w2 w3,
    on_message (Some (RPC_INVOKE s e)) w = (w1, Return tt)
    ∧ on_message (Some (RPC_CHUNK s d)) w1 = (w2, Return tt)
    ∧ on_message (Some (RPC_CHOKE s)) w2 = (w3, Return tt)
    ∧ for_each on_message
        [Some (RPC_INVOKE s e); Some (RPC_CHUNK s d); Some (RPC_CHOKE s)] w
      = (w3, Return tt)
    ∧ sessions w1 !! s = Some r
    ∧ requests w1 !! r = Some []
    ∧ requests w3 !! r = Some [Push d; Close]
    ∧ sessions w3 !! s = None.
Proof.
  intros r Hok Hquiet.
  assert (on_message (Some (RPC_INVOKE s e)) w
          = (set_sessions (<[s := r]>) (invoked s e w), Return tt)) as H1.
  { rewrite on_message_invoke. fold r. by rewrite Hok. }
  set (w1 := set_sessions (<[s := r]>) (invoked s e w)) in *.
  assert (sessions w1 !! s = Some r) as Hs1 by apply lookup_insert_eq.
  assert (requests w1 !! r = Some []) as Hr1.
  { simpl. unfold r. by rewrite lookup_app_r, Nat.sub_diag. }
  pose proof (on_message_chunk_registered w1 s d r [] Hs1 Hr1 (Hquiet _ _)) as H2.
  set (w2 := set_requests _ _) in H2.
  assert (sessions w2 !! s = Some r) as Hs2 by exact Hs1.
  assert (requests w2 !! r = Some [Push d]) as Hr2.
  { simpl. apply list_lookup_insert_eq. rewrite length_app. simpl. unfold r. lia. }
  pose proof (on_message_choke_registered w2 s r _ Hs2 Hr2 (Hquiet _ _)) as H3.
  set (w3 := set_sessions _ _) in H3.
  exists w1, w2, w3. repeat split; try done.
  - cbn [for_each]. unfold mbind, M_bind. by rewrite H1, H2, H3.
  - simpl. apply list_lookup_insert_eq.
    rewrite length_insert, length_app. simpl. unfold r. lia.
  - apply lookup_delete_eq.
Qed.

(** C6. A CHUNK, a CHOKE or an ERROR whose session id is not in the session
    table is a no-op: [on_message] returns without raising and leaves the
    worker as it was but for its log, so no request is allocated or called,
    nothing is written, the session table is unchanged and the loop is not
    stopped. *)
Theorem unknown_session_ignored
    (w : Worker) (s : N) (d : bytes) (code : Z) (text : string) (msg : Message) :
  sessions w !! s = None →
  msg ∈ [RPC_CHUNK s d; RPC_CHOKE s; RPC_ERROR s code text] →
  ∃ w', on_message (Some msg) w = (w', Return tt)
        ∧ only_logged w w'
        ∧ sessions w' = sessions w
        ∧ requests w' = requests w
        ∧ w_stream w' = w_stream w
        ∧ stopped w' = stopped w.
Proof.
  intros Hs Hmsg.
  repeat (apply elem_of_cons in Hmsg as [->|Hmsg]); [| | |by apply elem_of_nil in Hmsg];
    unfold on_message; unfold_methods; simpl; rewrite Hs;
    eexists; (split; [reflexivity|]); by destruct w.
Qed.

(** C9. An INVOKE whose session id is registered already, and whose handler
    succeeds, replaces the entry by the new request.  The new request is
    another object than the old one; the old one receives no call, neither
    [close] nor [error]; nothing is raised and nothing is logged. *)
Theorem invoke_overwrites
    (w : Worker) (s : N) (e : string) (old : nat) :
  sessions w !! s = Some old →
  old < length (requests w) →
  (sandbox e (length (requests w)) s).2 = None →
  ∃ w', on_message (Some (RPC_INVOKE s e)) w = (w', Return tt)
        ∧ sessions w' !! s = Some (length (requests w))
        ∧ length (requests w) ≠ old
        ∧ requests w' !! length (requests w) = Some []
        ∧ requests w' !! old = requests w !! old
        ∧ _logger w' = _logger w.
Proof.
  intros Hold Hlt Hok. eexists. split.
  - rewrite on_message_invoke, Hok. reflexivity.
  - simpl. repeat split.
    + apply lookup_insert_eq.
    + lia.
    + by rewrite lookup_app_r, Nat.sub_diag.
    + by rewrite lookup_app_l.
Qed.

(** C8. An ERROR for a registered session is delivered to the request of
    that session as [error(RequestError(message))], whether or not the call
    raises, and the session table is what it was.  No message but a CHOKE of
    a session removes that session's entry from the table. *)
Theorem error_keeps_session
    (w : Worker) (s : N) (r : nat) (received : list RequestCall)
    (code : Z) (text : string) :
  sessions w !! s = Some r →
  requests w !! r = Some received →
  let w' := (on_message (Some (RPC_ERROR s code text)) w).1 in
  requests w' !! r = Some (received ++ [Error (RequestError text)])
  ∧ sessions w' = sessions w
  ∧ ∀ (w0 : Worker) (msg : option Message) (s0 : N),
      is_Some (sessions w0 !! s0) →
      sessions (on_message msg w0).1 !! s0 = None →
      msg = Some (RPC_CHOKE s0).
Proof.
  intros Hs Hr w'. split; [|split].
  - subst w'. unfold on_message; unfold_methods; simpl.
    rewrite Hs; simpl. rewrite Hr; simpl.
    apply list_lookup_insert_eq. by eapply lookup_lt_Some.
  - subst w'. by rewrite on_message_sessions.
  - intros w0 msg s0 [r0 Hin] Hout. rewrite on_message_sessions in Hout.
    destruct msg as [[s1 u|s1|s1 e|s1 d|s1|s1 c t|s1 rs t]|]; try congruence.
    + destruct (sandbox e (length (requests w0)) s1).2; [congruence|].
      destruct (decide (s1 = s0)) as [->|Hne].
      * by rewrite lookup_insert_eq in Hout.
      * rewrite lookup_insert_ne in Hout by done. congruence.
    + destruct (decide (s1 = s0)) as [->|Hne]; [done|].
      destruct (sessions w0 !! s1) as [r1|]; [|congruence].
      destruct (request_raises r1 _ Close); [congruence|].
      rewrite lookup_delete_ne in Hout by done. congruence.
Qed.

(** ** Failures of handlers and requests *)


(** What the INVOKE rule does with an exception of the handler that
    [except Exception] does not catch: it leaves [on_message], nothing is
    logged, and the session table is what it was. *)
Lemma invoke_failure_escapes
    (w : Worker) (s : N) (e : string) (err : Exception) :
  (sandbox e (length (requests w)) s).2 = Some err →
  is_Exception err = false →
  ∃ w', on_message (Some (RPC_INVOKE s e)) w = (w', Raise err)
        ∧ _logger w' = _logger w
        ∧ sessions w' = sessions w.
Proof.
  intros Hraise Hclass. eexists. split.
  - rewrite on_message_invoke, Hraise. unfold handled.
    rewrite Hclass. reflexivity.
  - done.
Qed.

(** What the CHUNK rule does with a [push] that raises an instance of
    [Exception] whose text formats: the exception is caught and logged, the
    session table is what it was. *)
Lemma push_failure_contained
    (w : Worker) (s : N) (d : bytes) (r : nat) (err : Exception) (text : string) :
  sessions w !! s = Some r →
  request_raises r (default [] (requests w !! r)) (Push d) = Some err →
  is_Exception err = true →
  str err = Return text →
  ∃ w', on_message (Some (RPC_CHUNK s d)) w = (w', Return tt)
        ∧ LogError ("On push error: " +:+ text) ∈ _logger w'
        ∧ sessions w' = sessions w
        ∧ stopped w' = stopped w.
Proof.
  intros Hs Hraise Hclass Htext. unfold on_message; unfold_methods; simpl.
  rewrite Hs; simpl. rewrite Hraise, Hclass, Htext.
  eexists. split; [reflexivity|]. repeat split. simpl.
  apply elem_of_app. right. apply list_elem_of_here.
Qed.

(** What the CHOKE and ERROR rules do with a [close] or an [error] that
    raises: the exception leaves [on_message], and the session table is
    what it was. *)
Lemma close_failure_escapes (w : Worker) (s : N) (r : nat) (err : Exception) :
  sessions w !! s = Some r →
  request_raises r (default [] (requests w !! r)) Close = Some err →
  ∃ w', on_message (Some (RPC_CHOKE s)) w = (w', Raise err)
        ∧ sessions w' = sessions w.
Proof.
  intros Hs Hraise. unfold on_message; unfold_methods; simpl.
  rewrite Hs; simpl. rewrite Hraise. by eexists.
Qed.

Lemma error_failure_escapes
    (w : Worker) (s : N) (code : Z) (text : string) (r : nat) (err : Exception) :
  sessions w !! s = Some r →
  request_raises r (default [] (requests w !! r)) (Error (RequestError text))
  = Some err →
  ∃ w', on_message (Some (RPC_ERROR s code text)) w = (w', Raise err)
        ∧ sessions w' = sessions w.
Proof.
  intros Hs Hraise. unfold on_message; unfold_methods; simpl.
  rewrite Hs; simpl. rewrite Hraise. by eexists.
Qed.

(** ** What a call leaves alone *)

Lemma on_message_frame (msg : option Message) (w : Worker) :
  id (on_message msg w).1 = id w
  ∧ delay (disown_timer (on_message msg w).1) = delay (disown_timer w)
  ∧ (deadline (disown_timer w) = None →
     deadline (disown_timer (on_message msg w).1) = None)
  ∧ ∃ added, w_stream (on_message msg w).1 = w_stream w ++ added
             ∧ Forall (λ m, is_handshake m = false) added.
Proof.
  destruct msg as [[s u|s|s e|s d|s|s c t|s r t]|].
  - repeat split; try done. exists []. by rewrite app_nil_r.
  - repeat split; try done. exists []. by rewrite app_nil_r.
  - rewrite on_message_invoke.
    destruct (sandbox e (length (requests w)) s).2; case_except; simpl;
      (repeat split; try done;
       eexists; split; [reflexivity|];
       apply Forall_map, Forall_true; by intros []).
  - unfold on_message; unfold_methods; simpl.
    destruct (sessions w !! s) as [r|]; simpl;
      [destruct (request_raises r _ (Push d)); simpl; case_except|]; simpl;
      (repeat split; try done; exists []; by rewrite app_nil_r).
  - unfold on_message; unfold_methods; simpl.
    destruct (sessions w !! s) as [r|]; simpl;
      [destruct (request_raises r _ Close)|]; simpl;
      (repeat split; try done; exists []; by rewrite app_nil_r).
  - unfold on_message; unfold_methods; simpl.
    destruct (sessions w !! s) as [r|]; simpl;
      (repeat split; try done; exists []; by rewrite app_nil_r).
  - repeat split; try done. exists [RPC_TERMINATE 0 r t].
    split; [done|]. by repeat constructor.
  - repeat split; try done. exists []. by rewrite app_nil_r.
Qed.

Lemma call_frame (m : Method) (w : Worker) :
  id (call m w).1 = id w
  ∧ delay (disown_timer (call m w).1) = delay (disown_timer w)
  ∧ (is_heartbeat_send m = false →
     deadline (disown_timer w) = None →
     deadline (disown_timer (call m w).1) = None)
  ∧ ∃ added, w_stream (call m w).1 = w_stream w ++ added
             ∧ Forall (λ m, is_handshake m = false) added.
Proof.
  destruct m as [msg| | |r t|s|s d].
  - destruct (on_message_frame msg w) as (? & ? & ? & ?). by repeat split.
  - repeat split; try done. exists [RPC_HEARTBEAT 0]. by repeat constructor.
  - repeat split; try done. exists []. by rewrite app_nil_r.
  - repeat split; try done. exists [RPC_TERMINATE 0 r t]. by repeat constructor.
  - repeat split; try done. exists [RPC_CHOKE s]. by repeat constructor.
  - repeat split; try done. exists [RPC_CHUNK s d]. by repeat constructor.
Qed.

Lemma calls_frame (cs : list (nat * Method)) (w : Worker) :
  id (calls cs w) = id w
  ∧ delay (disown_timer (calls cs w)) = delay (disown_timer w)
  ∧ (Forall (λ c, is_heartbeat_send c.2 = false) cs →
     deadline (disown_timer w) = None →
     deadline (disown_timer (calls cs w)) = None)
  ∧ ∃ added, w_stream (calls cs w) = w_stream w ++ added
             ∧ Forall (λ m, is_handshake m = false) added.
Proof.
  revert w. induction cs as [|[t m] cs IH]; intros w.
  - repeat split; try done. exists []. by rewrite app_nil_r.
  - cbn [calls].
    destruct (call_frame m (set_now t w)) as (Hid & Hdelay & Hdead & add1 & Hw & Hadd1).
    destruct (IH (call m (set_now t w)).1) as (Hid' & Hdelay' & Hdead' & add2 & Hw' & Hadd2).
    repeat split.
    + by rewrite Hid', Hid.
    + by rewrite Hdelay', Hdelay.
    + intros Hcs Hnone. apply Forall_cons in Hcs as [Hm Hcs].
      apply Hdead'; [done|]. by apply Hdead.
    + exists (add1 ++ add2). split.
      * rewrite Hw', Hw. simpl. by rewrite app_assoc.
      * by apply Forall_app.
Qed.

(** ** Liveness *)

(** C3. A HEARTBEAT message disarms the disown timer and does not arm it
    again.  From then on the timer stays disarmed through every series of
    method calls without a heartbeat send, whatever the clock shows; a
    heartbeat send arms it, with a deadline one delay after the time of the
    send, and writes one HEARTBEAT message of session 0 to the peer. *)
Theorem heartbeat_receipt_disarms (w : Worker) (session : N) :
  let w1 := (on_message (Some (RPC_HEARTBEAT session)) w).1 in
  deadline (disown_timer w1) = None
  ∧ (∀ cs, Forall (λ c, is_heartbeat_send c.2 = false) cs →
           deadline (disown_timer (calls cs w1)) = None)
  ∧ (∀ w2, ∃ w3, on_heartbeat w2 = (w3, Return tt)
                 ∧ deadline (disown_timer w3)
                   = Some (now w2 + delay (disown_timer w2))
                 ∧ w_stream w3 = w_stream w2 ++ [RPC_HEARTBEAT 0]).
Proof.
  intros w1. split; [done|]. split.
  - intros cs Hcs. by apply calls_frame.
  - intros w2. eexists. by repeat split.
Qed.

(** ** Handshake *)

Lemma __init___inv (init_args : list string) (t0 : nat) (w : Worker) :
  __init__ init_args t0 = Return w →
  ∃ uuid app_name endpoint,
    flag_value "--uuid" init_args = Some uuid
    ∧ flag_value "--app" init_args = Some app_name
    ∧ flag_value "--endpoint" init_args = Some endpoint
    ∧ w = (announce (start_timers (new_worker uuid endpoint t0)).1).1.
Proof.
  unfold __init__, _init_endpoint. intros Hinit.
  destruct (flag_value "--uuid" init_args) as [uuid|]; [|done].
  destruct (flag_value "--app" init_args) as [app_name|]; [|done].
  destruct (flag_value "--endpoint" init_args) as [endpoint|]; [|done].
  exists uuid, app_name, endpoint. repeat split; try done.
  by injection Hinit as <-.
Qed.

(** C7. The constructor writes exactly one message, a HANDSHAKE of session 0
    that carries the identity given by the [--uuid] launch argument.
    Whatever is called on the worker afterwards, the handshake stays the
    first message written and no second HANDSHAKE follows it. *)
Theorem handshake_sent_once_and_first
    (init_args : list string) (t0 : nat) (w : Worker) :
  __init__ init_args t0 = Return w →
  flag_value "--uuid" init_args = Some (id w)
  ∧ w_stream w = [RPC_HANDSHAKE 0 (id w)]
  ∧ ∀ cs, ∃ later,
      w_stream (calls cs w) = RPC_HANDSHAKE 0 (id w) :: later
      ∧ Forall (λ m, is_handshake m = false) later.
Proof.
  intros Hinit.
  apply __init___inv in Hinit as (uuid & app_name & endpoint & Huuid & _ & _ & ->).
  repeat split; try done.
  intros cs.
  destruct (calls_frame cs (announce (start_timers (new_worker uuid endpoint t0)).1).1)
    as (_ & _ & _ & later & Hw & Hlater).
  exists later. by rewrite Hw.
Qed.

(** ** The store of requests *)

(* The session table only names requests of the store, in the worker the
    constructor builds and after every call on it: the requests the
    statements above assume to be in the store are there. *)

Lemma on_message_requests_length (msg : option Message) (w : Worker) :
  length (requests w) ≤ length (requests (on_message msg w).1)
  ∧ match msg with
    | Some (RPC_INVOKE _ _) =>
        length (requests (on_message msg w).1) = S (length (requests w))
    | _ => True
    end.
Proof.
  destruct msg as [[s u|s|s e|s d|s|s c t|s r t]|]; try done.
  - rewrite on_message_invoke.
    destruct (sandbox e (length (requests w)) s).2; case_except; simpl;
      rewrite length_app; simpl; lia.
  - unfold on_message; unfold_methods; simpl.
    destruct (sessions w !! s) as [r|]; simpl; [|done].
    destruct (request_raises r _ (Push d)); simpl; case_except;
      by rewrite length_insert.
  - unfold on_message; unfold_methods; simpl.
    destruct (sessions w !! s) as [r|]; simpl; [|done].
    destruct (request_raises r _ Close); simpl; by rewrite length_insert.
  - unfold on_message; unfold_methods; simpl.
    destruct (sessions w !! s) as [r|]; simpl; [|done].
    by rewrite length_insert.
Qed.

Lemma on_message_sessions_allocated (msg : option Message) (w : Worker) :
  sessions_allocated w → sessions_allocated (on_message msg w).1.
Proof.
  intros Hw s0 r0. rewrite on_message_sessions.
  destruct (on_message_requests_length msg w) as [Hle Hinvoke].
  destruct msg as [[s u|s|s e|s d|s|s c t|s r t]|];
    try (intros Hs0; apply Hw in Hs0; lia).
  - destruct (sandbox e (length (requests w)) s).2;
      [intros Hs0; apply Hw in Hs0; lia|].
    destruct (decide (s = s0)) as [->|Hne].
    + rewrite lookup_insert_eq. intros [= <-]. lia.
    + rewrite lookup_insert_ne by done. intros Hs0; apply Hw in Hs0; lia.
  - destruct (sessions w !! s) as [r1|];
      [destruct (request_raises r1 _ Close)|];
      try (intros Hs0; apply Hw in Hs0; lia).
    intros Hs0. apply lookup_delete_Some in Hs0 as [_ Hs0].
    apply Hw in Hs0; lia.
Qed.

Lemma calls_sessions_allocated (cs : list (nat * Method)) (w : Worker) :
  sessions_allocated w → sessions_allocated (calls cs w).
Proof.
  revert w. induction cs as [|[t m] cs IH]; intros w Hw; [done|].
  cbn [calls]. apply IH.
  destruct m as [msg| | |r text|s|s d]; try exact Hw.
  by apply (on_message_sessions_allocated msg (set_now t w)).
Qed.

Lemma __init___sessions_allocated (init_args : list string) (t0 : nat) (w : Worker) :
  __init__ init_args t0 = Return w → sessions_allocated w.
Proof.
  intros Hinit.
  apply __init___inv in Hinit as (uuid & app_name & endpoint & _ & _ & _ & ->).
  intros s r Hs. simpl in Hs. by rewrite lookup_empty in Hs.
Qed.

(** ** Termination *)

Lemma service_run_cons (ev : Event) (events : list Event) (w w' : Worker) :
  stopped w = false →
  handle sandbox request_raises ev w = (w', Return tt) →
  service_run (ev :: events) w = service_run events w'.
Proof.
  intros Hrun Hev. simpl. unfold_monad. by rewrite Hrun, Hev.
Qed.

Lemma service_run_stopped (events : list Event) (w : Worker) :
  stopped w = true → service_run events w = (w, Return tt).
Proof.
  intros Hstop. destruct events as [|ev events]; [done|].
  simpl. unfold_monad. by rewrite Hstop.
Qed.

Lemma on_message_stopped (msg : option Message) (w : Worker) :
  stopped w = true → stopped (on_message msg w).1 = true.
Proof.
  intros Hstop.
  destruct msg as [[s u|s|s e|s d|s|s c t|s r t]|]; try done.
  - rewrite on_message_invoke.
    destruct (sandbox e (length (requests w)) s).2; case_except; done.
  - unfold on_message; unfold_methods; simpl.
    destruct (sessions w !! s) as [r|]; simpl; [|done].
    destruct (request_raises r _ (Push d)); simpl; case_except; done.
  - unfold on_message; unfold_methods; simpl.
    destruct (sessions w !! s) as [r|]; simpl; [|done].
    by destruct (request_raises r _ Close).
  - unfold on_message; unfold_methods; simpl.
    by destruct (sessions w !! s) as [r|].
Qed.

Lemma Decoder_decode_stopped (chunk : list (option Message)) (w : Worker) :
  stopped w = true → stopped (Decoder_decode chunk w).1 = true.
Proof.
  unfold Decoder_decode. revert w.
  induction chunk as [|msg chunk IH]; intros w Hstop; [done|].
  cbn [for_each]. unfold mbind, M_bind.
  pose proof (on_message_stopped msg w Hstop) as Hmsg.
  destruct (on_message msg w) as [w1 [[]|err]]; [|done].
  by apply IH.
Qed.

Lemma Decoder_decode_terminate
    (pre post : list (option Message)) (session : N) (R : Z) (text : string)
    (w w' : Worker) :
  Decoder_decode (pre ++ Some (RPC_TERMINATE session R text) :: post) w
  = (w', Return tt) →
  stopped w' = true.
Proof.
  unfold Decoder_decode. revert w.
  induction pre as [|msg pre IH]; intros w Hdecode.
  - cbn [app for_each] in Hdecode.
    pose proof (Decoder_decode_stopped post
      (on_message (Some (RPC_TERMINATE session R text)) w).1 eq_refl) as Hpost.
    unfold mbind, M_bind in Hdecode. unfold Decoder_decode in Hpost.
    change (on_message (Some (RPC_TERMINATE session R text)) w)
      with ((on_message (Some (RPC_TERMINATE session R text)) w).1, Return tt)
      in Hdecode.
    cbv iota beta in Hdecode. by rewrite Hdecode in Hpost.
  - cbn [app for_each] in Hdecode. unfold mbind, M_bind in Hdecode.
    destruct (on_message msg w) as [w1 [[]|err]]; [|done].
    by eapply IH.
Qed.

(** C4, as the code has it.  An inbound TERMINATE with reason R and message
    M makes the worker write exactly one message, a TERMINATE of session 0
    with the same R and M, and stop the loop.  A running loop that reads a
    chunk with a TERMINATE in it does what the decoder does with that chunk
    and handles none of the events that follow. *)
Theorem terminate_echoed_and_loop_stopped
    (w : Worker) (session : N) (R : Z) (text : string)
    (pre post : list (option Message)) (events : list Event) :
  stopped w = false →
  ∃ w', on_message (Some (RPC_TERMINATE session R text)) w = (w', Return tt)
        ∧ w_stream w' = w_stream w ++ [RPC_TERMINATE 0 R text]
        ∧ stopped w' = true
        ∧ sessions w' = sessions w
        ∧ requests w' = requests w
        ∧ service_run
            (Readable (pre ++ Some (RPC_TERMINATE session R text) :: post) :: events) w
          = Decoder_decode
              (pre ++ Some (RPC_TERMINATE session R text) :: post) w.
Proof.
  intros Hrun. eexists. split; [reflexivity|]. repeat split.
  cbn [service_run handle]. unfold_monad. rewrite Hrun.
  destruct (Decoder_decode _ w) as [w1 [[]|err]] eqn:Hdecode; [|done].
  apply service_run_stopped. by eapply Decoder_decode_terminate.
Qed.

End Dispatcher.


(** ** Liveness at startup *)

(** C10. The constructor arms the disown timer first: when the timers have
    been started the deadline is set, two time units after the start, and
    nothing has been written yet, neither the handshake nor a heartbeat.  If
    the peer stays silent, the first thing the loop does is to fire the
    disown timer: the loop is stopped when the clock shows two time units
    after the start, and no heartbeat has been sent. *)
Theorem disown_armed_at_construction
    (init_args : list string) (t0 : nat) (w : Worker) :
  __init__ init_args t0 = Return w →
  ∃ uuid endpoint,
    let w0 := (start_timers (new_worker uuid endpoint t0)).1 in
    w = (announce w0).1
    ∧ deadline (disown_timer w0) = Some (t0 + 2)
    ∧ w_stream w0 = []
    ∧ deadline (disown_timer w) = Some (t0 + 2)
    ∧ deadline (heartbeat_timer w) = Some (t0 + 5)
    ∧ ∀ fuel, 0 < fuel →
        ∃ w', service_run_idle fuel w = (w', Return tt)
              ∧ stopped w' = true
              ∧ now w' = t0 + 2
              ∧ w_stream w' = [RPC_HANDSHAKE 0 uuid]
              ∧ LogError "Disowned" ∈ _logger w'.
Proof.
  intros Hinit.
  apply __init___inv in Hinit as (uuid & app_name & endpoint & _ & _ & _ & ->).
  exists uuid, endpoint. repeat split.
  intros [|fuel] Hfuel; [lia|].
  set (w := (announce _).1).
  assert (next_timer w = Some (t0 + 2, the_disown_timer)) as Hnext.
  { unfold next_timer. simpl.
    by destruct (decide (t0 + 2 ≤ t0 + 5)) as [_|Hle]; [|lia]. }
  cbn [service_run_idle]. unfold_monad.
  change (stopped w) with false. cbv beta iota. rewrite Hnext.
  unfold fire, callback, on_disown, logger_error, service_stop, disown_timer_stop.
  unfold_monad. simpl. rewrite Nat.max_r by lia.
  eexists. split.
  - destruct fuel; reflexivity.
  - repeat split. simpl. set_solver.
Qed.


(** ** The rules at work on the example worker *)

(** C2. The CHUNK rule contains an exception of [push] (see
    [push_failure_contained]); the CHOKE and ERROR rules have no [try] of
    their own.  With requests that raise, a CHOKE for the registered session
    7 makes [on_message] raise: only the debug line is logged, and the
    session stays in the table because [pop] is not reached.  An ERROR for
    the session makes [on_message] raise as well, and logs nothing. *)
Theorem close_and_error_exceptions_escape :
  let choke := on_message example_sandbox broken_request (Some (RPC_CHOKE 7)) serving_worker in
  let error := on_message example_sandbox broken_request
                 (Some (RPC_ERROR 7 1 "boom")) serving_worker in
  sessions serving_worker !! 7%N = Some 0
  ∧ choke.2 = Raise (mkException "IOError" "request is gone")
  ∧ _logger choke.1 = [LogDebug "Receive choke: 7"]
  ∧ sessions choke.1 !! 7%N = Some 0
  ∧ requests choke.1 = [[Close]]
  ∧ error.2 = Raise (mkException "IOError" "request is gone")
  ∧ _logger error.1 = []
  ∧ requests error.1 = [[Error (RequestError "boom")]].
Proof. vm_compute. by repeat split. Qed.

(** C4, as stated, fails: a message that follows a TERMINATE in the chunk
    the decoder is given is dispatched all the same.  Here the INVOKE after
    the TERMINATE registers session 7. *)
Lemma message_after_terminate_dispatched :
  ¬ (∀ (w : Worker) (session : N) (R : Z) (text : string)
       (later : list (option Message)) (events : list Event),
       stopped w = false →
       (service_run example_sandbox sound_request
          (Readable (Some (RPC_TERMINATE session R text) :: later) :: events) w).1
       = (on_message example_sandbox sound_request
            (Some (RPC_TERMINATE session R text)) w).1).
Proof.
  intros Hclaim.
  specialize (Hclaim example_worker 0%N 1%Z "bye" [Some (RPC_INVOKE 7 "e")] [] eq_refl).
  apply (f_equal (λ w, sessions w !! 7%N)) in Hclaim.
  vm_compute in Hclaim. discriminate Hclaim.
Qed.


(** ** The theorems at concrete inputs *)

Lemma invoke_chunk_choke_witness :
  ∃ w3, for_each (on_message example_sandbox sound_request)
          [Some (RPC_INVOKE 7 "e"); Some (RPC_CHUNK 7 [Byte.x78]); Some (RPC_CHOKE 7)]
          example_worker
        = (w3, Return tt)
        ∧ requests w3 !! 0 = Some [Push [Byte.x78]; Close]
        ∧ sessions w3 !! 7%N = None.
Proof.
  destruct (invoke_chunk_choke example_sandbox sound_request
              example_worker 7 "e" [Byte.x78])
    as (w1 & w2 & w3 & _ & _ & _ & Hall & _ & _ & Hreq & Hsess).
  - reflexivity.
  - intros received c. reflexivity.
  - exists w3. split; [exact Hall|]. split; [exact Hreq|exact Hsess].
Defined.

Lemma heartbeat_receipt_disarms_witness :
  deadline (disown_timer
    (calls example_sandbox sound_request
       [(3, call_on_message (Some (RPC_INVOKE 7 "e"))); (4, call_send_choke 7)]
       (on_message example_sandbox sound_request (Some (RPC_HEARTBEAT 0))
          (set_disown_timer (Timer_start 0) example_worker)).1))
  = None.
Proof.
  apply (heartbeat_receipt_disarms example_sandbox sound_request
           (set_disown_timer (Timer_start 0) example_worker) 0).
  repeat constructor.
Defined.

Lemma terminate_echoed_and_loop_stopped_witness :
  stopped example_worker = false
  ∧ ∃ w', service_run example_sandbox sound_request
            [Readable [Some (RPC_CHUNK 7 []); Some (RPC_TERMINATE 0 1 "bye")];
             Fired the_heartbeat_timer] example_worker
          = Decoder_decode example_sandbox sound_request
              [Some (RPC_CHUNK 7 []); Some (RPC_TERMINATE 0 1 "bye")] example_worker
          ∧ on_message example_sandbox sound_request
              (Some (RPC_TERMINATE 0 1 "bye")) example_worker = (w', Return tt)
          ∧ w_stream w' = [RPC_TERMINATE 0 1 "bye"].
Proof.
  split; [reflexivity|].
  destruct (terminate_echoed_and_loop_stopped example_sandbox sound_request
              example_worker 0 1 "bye" [Some (RPC_CHUNK 7 [])] []
              [Fired the_heartbeat_timer] eq_refl)
    as (w' & Hmsg & Hout & _ & _ & _ & Hloop).
  exists w'. split; [exact Hloop|]. split; [exact Hmsg|exact Hout].
Defined.


Lemma unknown_session_ignored_witness :
  sessions serving_worker !! 8%N = None
  ∧ ∃ w', on_message example_sandbox broken_request
            (Some (RPC_CHOKE 8)) serving_worker = (w', Return tt)
          ∧ sessions w' = sessions serving_worker
          ∧ requests w' = requests serving_worker.
Proof.
  split; [reflexivity|].
  destruct (unknown_session_ignored example_sandbox broken_request
              serving_worker 8 [] 0 "" (RPC_CHOKE 8) eq_refl)
    as (w' & Hmsg & _ & Hsess & Hreq & _).
  - apply list_elem_of_further, list_elem_of_here.
  - exists w'. split; [exact Hmsg|]. split; [exact Hsess|exact Hreq].
Defined.

Lemma handshake_sent_once_and_first_witness :
  ∃ w, __init__ example_args 0 = Return w
       ∧ id w = "u-1"
       ∧ w_stream w = [RPC_HANDSHAKE 0 "u-1"].
Proof.
  eexists. split; [reflexivity|].
  destruct (handshake_sent_once_and_first example_sandbox sound_request
              example_args 0 _ eq_refl) as (Hid & Hout & _).
  split; [reflexivity|exact Hout].
Defined.

Lemma error_keeps_session_witness :
  sessions serving_worker !! 7%N = Some 0
  ∧ requests serving_worker !! 0 = Some []
  ∧ requests (on_message example_sandbox broken_request
                (Some (RPC_ERROR 7 1 "boom")) serving_worker).1 !! 0
    = Some [Error (RequestError "boom")]
  ∧ sessions (on_message example_sandbox broken_request
                (Some (RPC_ERROR 7 1 "boom")) serving_worker).1
    = sessions serving_worker.
Proof.
  split; [reflexivity|]. split; [reflexivity|].
  destruct (error_keeps_session example_sandbox broken_request
              serving_worker 7 0 [] 1 "boom" eq_refl eq_refl)
    as (Hreq & Hsess & _).
  split; [exact Hreq|exact Hsess].
Defined.

Lemma invoke_overwrites_witness :
  sessions serving_worker !! 7%N = Some 0
  ∧ ∃ w', on_message example_sandbox sound_request
            (Some (RPC_INVOKE 7 "e")) serving_worker = (w', Return tt)
          ∧ sessions w' !! 7%N = Some 1
          ∧ requests w' !! 0 = Some [].
Proof.
  split; [reflexivity|].
  destruct (invoke_overwrites example_sandbox sound_request
              serving_worker 7 "e" 0 eq_refl)
    as (w' & Hmsg & Hsess & _ & _ & Hold & _).
  - simpl. lia.
  - reflexivity.
  - exists w'. split; [exact Hmsg|]. split; [exact Hsess|exact Hold].
Defined.

Lemma disown_armed_at_construction_witness :
  ∃ w w', __init__ example_args 0 = Return w
          ∧ service_run_idle 3 w = (w', Return tt)
          ∧ stopped w' = true
          ∧ now w' = 2.
Proof.
  destruct (disown_armed_at_construction example_args 0 _ eq_refl)
    as (uuid & endpoint & _ & _ & _ & _ & _ & Hidle).
  destruct (Hidle 3) as (w' & Hrun & Hstop & Hnow & _); [lia|].
  eexists _, w'. split; [reflexivity|]. split; [exact Hrun|]. split; [exact Hstop|exact Hnow].
Defined.

(** * Further properties of the worker *)

(** ** Launch arguments *)

Lemma index_Some (x : string) (l : list string) (i : nat) :
  index x l = Some i
  ↔ (∃ pre post, l = pre ++ x :: post ∧ (x ∉ pre) ∧ i = length pre).
Proof.
  revert i. induction l as [|y l IH]; intros i; simpl.
  - split; [done|]. intros (pre & post & Hl & _). by destruct pre.
  - destruct (decide (y = x)) as [->|Hne].
    + split.
      * intros [= <-]. exists [], l. repeat split. apply not_elem_of_nil.
      * intros (pre & post & Hl & Hpre & ->). destruct pre as [|z pre]; [done|].
        injection Hl as <- _. exfalso. apply Hpre. apply list_elem_of_here.
    + destruct (index x l) as [j|] eqn:Hj; simpl.
      * split.
        -- intros [= <-]. destruct (proj1 (IH j) eq_refl) as (pre & post & -> & Hpre & ->).
           exists (y :: pre), post. repeat split.
           intros [->|Hin]%elem_of_cons; [done|]. by apply Hpre.
        -- intros (pre & post & Hl & Hpre & ->). destruct pre as [|z pre].
           { injection Hl as -> _. done. }
           injection Hl as <- ->. f_equal. simpl.
           assert (Some j = Some (length pre)) as [= ->]; [|done].
           apply IH. exists pre, post. repeat split.
           intros Hin. apply Hpre. by apply list_elem_of_further.
      * split; [done|]. intros (pre & post & Hl & Hpre & ->). destruct pre as [|z pre].
        { injection Hl as -> _. done. }
        injection Hl as <- ->.
        assert (None = Some (length pre)) as Habs; [|done].
        apply IH. exists pre, post. repeat split.
        intros Hin. apply Hpre. by apply list_elem_of_further.
Qed.

(** X1. [init_args[init_args.index(flag) + 1]] is the argument that follows
    the first occurrence of the flag: it has the value [v] exactly when the
    arguments are some [pre], the flag, [v] and some [post], with no
    occurrence of the flag in [pre].  A flag that first occurs as the last
    argument has no value, whatever follows later occurrences. *)
Theorem flag_value_first_occurrence (flag v : string) (init_args : list string) :
  flag_value flag init_args = Some v
  ↔ (∃ pre post, init_args = pre ++ flag :: v :: post ∧ (flag ∉ pre)).
Proof.
  unfold flag_value. split.
  - intros Hv. destruct (index flag init_args) as [i|] eqn:Hi; [|done].
    simpl in Hv. apply index_Some in Hi as (pre & post & -> & Hpre & ->).
    rewrite lookup_app_r in Hv by lia.
    replace (length pre + 1 - length pre) with 1 in Hv by lia.
    destruct post as [|v' post]; [done|]. injection Hv as ->.
    by exists pre, post.
  - intros (pre & post & -> & Hpre).
    assert (index flag (pre ++ flag :: v :: post) = Some (length pre)) as ->.
    { apply index_Some. by exists pre, (v :: post). }
    simpl. rewrite lookup_app_r by lia.
    by replace (length pre + 1 - length pre) with 1 by lia.
Qed.

Lemma flag_value_decompose (flag : string) (init_args : list string) :
  match flag_value flag init_args with
  | Some v => ∃ pre post, init_args = pre ++ flag :: v :: post ∧ (flag ∉ pre)
  | None => ∀ pre v post, init_args = pre ++ flag :: v :: post → flag ∈ pre
  end.
Proof.
  unfold flag_value.
  destruct (index flag init_args) as [i|] eqn:Hi; simpl.
  - apply index_Some in Hi as (pre & post & -> & Hpre & ->).
    rewrite lookup_app_r by lia.
    replace (length pre + 1 - length pre) with 1 by lia.
    destruct post as [|v post]; simpl.
    + intros pre' v' post' Heq.
      destruct (decide (flag ∈ pre')) as [Hin|Hout]; [done|]. exfalso.
      assert (Some (length pre) = Some (length pre')) as [= Hlen].
      { rewrite <- (proj2 (index_Some flag (pre ++ [flag]) (length pre))).
        - rewrite Heq. apply index_Some. by exists pre', (v' :: post').
        - by exists pre, []. }
      apply (f_equal length) in Heq. rewrite !length_app in Heq. simpl in Heq. lia.
    + by exists pre, post.
  - intros pre v post Heq.
    destruct (decide (flag ∈ pre)) as [Hin|Hout]; [done|]. exfalso.
    assert (index flag init_args = Some (length pre)) as Hsome.
    { apply index_Some. by exists pre, (v :: post). }
    by rewrite Hsome in Hi.
Qed.

(** X2. The constructor needs the three flags [--uuid], [--app] and
    [--endpoint], each followed by a value.  When it returns a worker, the
    arguments hold [--uuid] followed by the [id] of the worker and
    [--endpoint] followed by its [endpoint], each at the first occurrence of
    the flag, and [--app] followed by some value.  When it raises, it raises
    the one [RuntimeError("Wrong cmdline arguments")], and one of the three
    flags is followed by nothing at its first occurrence, or does not
    occur. *)
Theorem init_needs_three_flags (init_args : list string) (t0 : nat) :
  match __init__ init_args t0 with
  | Return w =>
      (∃ pre post, init_args = pre ++ "--uuid" :: id w :: post ∧ ("--uuid" ∉ pre))
      ∧ (∃ pre post,
            init_args = pre ++ "--endpoint" :: endpoint w :: post
            ∧ ("--endpoint" ∉ pre))
      ∧ (∃ pre app_name post,
            init_args = pre ++ "--app" :: app_name :: post ∧ ("--app" ∉ pre))
  | Raise err =>
      err = RuntimeError "Wrong cmdline arguments"
      ∧ ∃ flag, flag ∈ ["--uuid"; "--app"; "--endpoint"]
                ∧ ∀ pre v post, init_args = pre ++ flag :: v :: post → flag ∈ pre
  end.
Proof.
  unfold __init__, _init_endpoint.
  pose proof (flag_value_decompose "--uuid" init_args) as Huuid.
  pose proof (flag_value_decompose "--app" init_args) as Happ.
  pose proof (flag_value_decompose "--endpoint" init_args) as Hendpoint.
  destruct (flag_value "--uuid" init_args) as [uuid|].
  - destruct (flag_value "--app" init_args) as [app_name|].
    + destruct (flag_value "--endpoint" init_args) as [endpoint|].
      * split; [exact Huuid|]. split; [exact Hendpoint|].
        destruct Happ as (pre & post & Happ). by exists pre, app_name, post.
      * split; [done|]. exists "--endpoint". split; [|exact Hendpoint].
        apply list_elem_of_further, list_elem_of_further, list_elem_of_here.
    + split; [done|]. exists "--app". split; [|exact Happ].
      apply list_elem_of_further, list_elem_of_here.
  - split; [done|]. exists "--uuid". split; [|exact Huuid].
    apply list_elem_of_here.
Qed.

Section Sessions.

Variable sandbox : string → nat → N → list StreamCall * option Exception.
Variable request_raises : nat → list RequestCall → RequestCall → option Exception.

Local Abbreviation on_message := (on_message sandbox request_raises).
Local Abbreviation call := (call sandbox request_raises).
Local Abbreviation calls := (calls sandbox request_raises).

Ltac unfold_rules :=
  unfold on_message, call, on_heartbeat, on_disown, terminate, _send_heartbeat,
    send_choke, send_chunk, Request_call, logger_debug, logger_error,
    w_stream_write, service_stop, disown_timer_stop, disown_timer_start;
  unfold_monad.

(** ** Entries of the session table *)

(** X3. Only an INVOKE creates an entry of the session table: when a session
    id is absent before a message and present after it, the message is an
    INVOKE of that id whose handler did not raise, and the entry is the
    request allocated for this call. *)
Theorem only_invoke_registers
    (w : Worker) (msg : option Message) (s : N) (r : nat) :
  sessions w !! s = None →
  sessions (on_message msg w).1 !! s = Some r →
  ∃ e, msg = Some (RPC_INVOKE s e)
       ∧ (sandbox e (length (requests w)) s).2 = None
       ∧ r = length (requests w).
Proof.
  intros Hbefore Hafter. rewrite on_message_sessions in Hafter.
  destruct msg as [[s1 u|s1|s1 e|s1 d|s1|s1 c t|s1 rs t]|]; try congruence.
  - destruct (sandbox e (length (requests w)) s1).2 eqn:Hok; [congruence|].
    destruct (decide (s1 = s)) as [->|Hne].
    + rewrite lookup_insert_eq in Hafter. injection Hafter as <-. by exists e.
    + rewrite lookup_insert_ne in Hafter by done. congruence.
  - destruct (sessions w !! s1) as [r1|]; [|congruence].
    destruct (request_raises r1 _ Close); [congruence|].
    apply lookup_delete_Some in Hafter as [_ Hafter]. congruence.
Qed.

Lemma on_message_sessions_distinct (msg : option Message) (w : Worker) :
  sessions_allocated w → sessions_distinct w →
  sessions_distinct (on_message msg w).1.
Proof.
  intros Halloc Hdist s1 s2 r0. rewrite on_message_sessions.
  destruct msg as [[s u|s|s e|s d|s|s c t|s r t]|]; try apply Hdist.
  - destruct (sandbox e (length (requests w)) s).2; [apply Hdist|].
    destruct (decide (s = s1)) as [Heq1|Hne1], (decide (s = s2)) as [Heq2|Hne2].
    + congruence.
    + subst s1. rewrite lookup_insert_eq, lookup_insert_ne by done.
      intros [= <-] H2. apply Halloc in H2. lia.
    + subst s2. rewrite lookup_insert_eq, lookup_insert_ne by done.
      intros H1 [= <-]. apply Halloc in H1. lia.
    + rewrite !lookup_insert_ne by done. apply Hdist.
  - destruct (sessions w !! s) as [r1|]; [|apply Hdist].
    destruct (request_raises r1 _ Close); [apply Hdist|].
    intros [_ H1]%lookup_delete_Some [_ H2]%lookup_delete_Some.
    by eapply Hdist.
Qed.

Lemma calls_sessions_invariant (cs : list (nat * Method)) (w : Worker) :
  sessions_allocated w → sessions_distinct w →
  sessions_allocated (calls cs w) ∧ sessions_distinct (calls cs w).
Proof.
  revert w. induction cs as [|[t m] cs IH]; intros w Halloc Hdist; [done|].
  cbn [calls]. apply IH.
  - destruct m as [msg| | |r text|s|s d]; try exact Halloc.
    by apply (on_message_sessions_allocated _ _ msg (set_now t w)).
  - destruct m as [msg| | |r text|s|s d]; try exact Hdist.
    by apply (on_message_sessions_distinct msg (set_now t w)).
Qed.

(** X4. Sessions do not leak into each other.  In a worker built by the
    constructor, after any series of calls, a message leaves the request of
    every registered session as it is, unless it is a CHUNK, CHOKE or ERROR
    of that very session. *)
Theorem other_sessions_untouched
    (init_args : list string) (t0 : nat) (w0 : Worker)
    (cs : list (nat * Method)) (msg : option Message) (s : N) (r : nat) :
  __init__ init_args t0 = Return w0 →
  sessions (calls cs w0) !! s = Some r →
  delivered_to msg ≠ Some s →
  requests (on_message msg (calls cs w0)).1 !! r = requests (calls cs w0) !! r.
Proof.
  intros Hinit Hs Hmsg.
  destruct (calls_sessions_invariant cs w0) as [Halloc Hdist].
  { by eapply __init___sessions_allocated. }
  { apply __init___inv in Hinit as (uuid & app_name & endpoint & _ & _ & _ & ->).
    intros s1 s2 r0 H1. simpl in H1. by rewrite lookup_empty in H1. }
  set (w := calls cs w0) in *.
  assert (∀ s1 r1 c, s1 ≠ s → sessions w !! s1 = Some r1 →
            (<[r1 := default [] (requests w !! r1) ++ [c]]> (requests w)) !! r
            = requests w !! r) as Hother.
  { intros s1 r1 c Hne H1. apply list_lookup_insert_ne.
    intros ->. apply Hne. by eapply Hdist. }
  destruct msg as [[s1 u|s1|s1 e|s1 d|s1|s1 c t|s1 rs t]|]; try done.
  - rewrite on_message_invoke.
    destruct (sandbox e (length (requests w)) s1).2; case_except; simpl;
      apply lookup_app_l; by eapply Halloc.
  - assert (s1 ≠ s) as Hne by (intros ->; by apply Hmsg).
    unfold_rules; simpl.
    destruct (sessions w !! s1) as [r1|] eqn:H1; simpl; [|done].
    destruct (request_raises r1 _ (Push d)); simpl; case_except;
      by eapply Hother.
  - assert (s1 ≠ s) as Hne by (intros ->; by apply Hmsg).
    unfold_rules; simpl.
    destruct (sessions w !! s1) as [r1|] eqn:H1; simpl; [|done].
    destruct (request_raises r1 _ Close); simpl; by eapply Hother.
  - assert (s1 ≠ s) as Hne by (intros ->; by apply Hmsg).
    unfold_rules; simpl.
    destruct (sessions w !! s1) as [r1|] eqn:H1; simpl; [|done].
    by eapply Hother.
Qed.


(** X6. Once a session is closed by a CHOKE, what arrives for it afterwards
    is dropped: a later CHUNK, CHOKE or ERROR of the same id calls no
    request, raises nothing and changes nothing but the log. *)
Theorem closed_session_ignored
    (w : Worker) (s : N) (r : nat) (msg : Message) :
  sessions w !! s = Some r →
  request_raises r (default [] (requests w !! r)) Close = None →
  delivered_to (Some msg) = Some s →
  ∃ w1 w2, on_message (Some (RPC_CHOKE s)) w = (w1, Return tt)
           ∧ sessions w1 !! s = None
           ∧ on_message (Some msg) w1 = (w2, Return tt)
           ∧ only_logged w1 w2.
Proof.
  intros Hs Hok Hmsg.
  assert (∃ w1, on_message (Some (RPC_CHOKE s)) w = (w1, Return tt)
                ∧ sessions w1 !! s = None) as (w1 & Hchoke & Hs1).
  { unfold_rules; simpl. rewrite Hs; simpl. rewrite Hok.
    eexists. split; [reflexivity|]. apply lookup_delete_eq. }
  exists w1. destruct msg as [s1 u|s1|s1 e|s1 d|s1|s1 c t|s1 rs t]; try done;
    injection Hmsg as ->; unfold_rules; simpl; rewrite Hs1;
    eexists; (repeat split; [done..|]); by destruct w1.
Qed.

(** ** What the worker writes *)

(** X7. What a message makes the worker write to the peer.  An INVOKE puts
    on the wire what its handler wrote on its stream, in the order of the
    calls and with the id of the session, whether the handler raises in the
    end or not; a TERMINATE is echoed with session 0; every other message is
    left without a reply: no acknowledgement of a CHUNK, a CHOKE or a
    HEARTBEAT, and no error report for a handler or a request that
    failed. *)
Theorem on_message_writes (msg : option Message) (w : Worker) :
  w_stream (on_message msg w).1
  = w_stream w
    ++ match msg with
       | Some (RPC_INVOKE s e) =>
           map (stream_message s) (sandbox e (length (requests w)) s).1
       | Some (RPC_TERMINATE _ reason text) => [RPC_TERMINATE 0 reason text]
       | _ => []
       end.
Proof.
  destruct msg as [[s u|s|s e|s d|s|s c t|s r t]|];
    try (by rewrite app_nil_r); try done.
  - rewrite on_message_invoke.
    destruct (sandbox e (length (requests w)) s).2; case_except; done.
  - unfold_rules; simpl. rewrite app_nil_r.
    destruct (sessions w !! s) as [r|]; simpl; [|done].
    destruct (request_raises r _ (Push d)); simpl; case_except; done.
  - unfold_rules; simpl. rewrite app_nil_r.
    destruct (sessions w !! s) as [r|]; simpl; [|done].
    by destruct (request_raises r _ Close).
  - unfold_rules; simpl. rewrite app_nil_r.
    by destruct (sessions w !! s) as [r|].
Qed.

Lemma call_written (m : Method) (w : Worker) :
  ∃ added, w_stream (call m w).1 = w_stream w ++ added
           ∧ Forall (λ msg, written_after_handshake msg = true) added.
Proof.
  destruct m as [msg| | |r t|s|s d].
  - eexists. split; [apply on_message_writes|].
    destruct msg as [[s u|s|s e|s d|s|s c t|s r t]|]; try by constructor.
    apply Forall_map, Forall_true. by intros [].
  - exists [RPC_HEARTBEAT 0]. by repeat constructor.
  - exists []. split; [by rewrite app_nil_r|constructor].
  - exists [RPC_TERMINATE 0 r t]. by repeat constructor.
  - exists [RPC_CHOKE s]. by repeat constructor.
  - exists [RPC_CHUNK s d]. by repeat constructor.
Qed.

(** X8. The wire is append-only and carries five kinds of messages.
    Whatever is called on a worker, what it had written stays a prefix of
    what it has written, and every message added is a HEARTBEAT or a
    TERMINATE of session 0, or a CHUNK or a CHOKE: the worker never writes
    an ERROR, an INVOKE or another HANDSHAKE. *)
Theorem wire_append_only (cs : list (nat * Method)) (w : Worker) :
  ∃ added, w_stream (calls cs w) = w_stream w ++ added
           ∧ Forall (λ msg, written_after_handshake msg = true) added.
Proof.
  revert w. induction cs as [|[t m] cs IH]; intros w.
  - exists []. split; [by rewrite app_nil_r|constructor].
  - cbn [calls].
    destruct (call_written m (set_now t w)) as (add1 & Hw1 & Hadd1).
    destruct (IH (call m (set_now t w)).1) as (add2 & Hw2 & Hadd2).
    exists (add1 ++ add2). split.
    + rewrite Hw2, Hw1. simpl. by rewrite app_assoc.
    + by apply Forall_app.
Qed.

End Sessions.

(** * Properties of [LocalUpload]: the choice of the manifest *)

Lemma insert_by_priority_head (m : string * nat) (l : list (string * nat)) :
  ∃ l', insert_by_priority m l
        = (match l with
           | m' :: _ => if decide (m.2 < m'.2) then m' else m
           | [] => m
           end) :: l'.
Proof.
  destruct l as [|m' l]; simpl; [by eexists|].
  destruct (decide (m.2 < m'.2)); by eexists.
Qed.

Lemma sorted_by_priority_head (l : list (string * nat)) (m : string * nat)
    (rest : list (string * nat)) :
  sorted_by_priority l = m :: rest →
  ∃ pre post, l = pre ++ m :: post
              ∧ Forall (λ m', m'.2 < m.2) pre
              ∧ Forall (λ m', m'.2 ≤ m.2) post.
Proof.
  revert m rest. induction l as [|x l IH]; intros m rest Hsort; [done|].
  simpl in Hsort.
  destruct (sorted_by_priority l) as [|y sorted] eqn:Hl.
  - destruct l as [|x' l].
    + injection Hsort as <- _. exists [], []. by repeat split.
    + simpl in Hl. destruct (insert_by_priority_head x' (sorted_by_priority l)) as [l' Hhead].
      by rewrite Hhead in Hl.
  - destruct (IH y sorted eq_refl) as (pre & post & -> & Hpre & Hpost).
    simpl in Hsort. destruct (decide (x.2 < y.2)) as [Hlt|Hge].
    + injection Hsort as <- _. exists (x :: pre), post.
      repeat split; [|done]. by constructor.
    + injection Hsort as <- _. exists [], (pre ++ y :: post).
      repeat split; [constructor|].
      apply Forall_app. split.
      * eapply Forall_impl; [exact Hpre|]. simpl. lia.
      * constructor; [lia|]. eapply Forall_impl; [exact Hpost|]. simpl. lia.
Qed.

Lemma found_manifests_elem
    (path : string) (walked : list (string * list string * list string))
    (m : string * nat) :
  m ∈ found_manifests path walked
  ↔ (∃ root dirNames fileNames fileName,
        (root, dirNames, fileNames) ∈ walked
        ∧ fileName ∈ fileNames
        ∧ String.prefix "manifest" fileName = true
        ∧ m = (os_path_join root fileName, manifest_priority path root fileName)).
Proof.
  unfold found_manifests. rewrite list_elem_of_In, in_flat_map. split.
  - intros ([[root dirNames] fileNames] & Hin & Hm).
    apply in_flat_map in Hm as (fileName & Hfile & Hm).
    destruct (String.prefix "manifest" fileName) eqn:Hprefix; [|done].
    destruct Hm as [<-|[]].
    exists root, dirNames, fileNames, fileName.
    by rewrite !list_elem_of_In.
  - intros (root & dirNames & fileNames & fileName & Hin & Hfile & Hprefix & ->).
    exists (root, dirNames, fileNames). rewrite <- list_elem_of_In. split; [done|].
    apply in_flat_map. exists fileName. rewrite <- list_elem_of_In. split; [done|].
    rewrite Hprefix. by left.
Qed.

Section LocalUploadProperties.

Variable os_path_abspath : string → string.
Variable os_walk : string → list (string * list string * list string).

Local Abbreviation LocalUpload_locate :=
  (LocalUpload_locate os_path_abspath os_walk).

(** X9. With a name that is not empty, [LocalUpload] raises the
    [ToolsError] "No manifest file found" exactly when no file of the
    walked directories has a name that starts with [manifest]; otherwise it
    goes on with the name it was given. *)
Theorem no_manifest_is_an_error (name path : string) :
  name ≠ "" →
  (∀ root dirNames fileNames fileName,
     (root, dirNames, fileNames) ∈ os_walk path →
     fileName ∈ fileNames →
     String.prefix "manifest" fileName = false)
  ↔ LocalUpload_locate (Some name) path
    = Raise (ToolsError ("No manifest file found in " +:+ dquote
                         +:+ os_path_abspath path +:+ dquote
                         +:+ " or subdirectories")).
Proof.
  intros Hname. unfold LocalUpload_locate.
  rewrite bool_decide_eq_false_2 by done.
  destruct (sorted_by_priority (found_manifests path (os_walk path)))
    as [|[manifest priority] rest] eqn:Hsorted.
  - split; [done|]. intros _ root dirNames fileNames fileName Hin Hfile.
    destruct (String.prefix "manifest" fileName) eqn:Hprefix; [|done].
    assert ((os_path_join root fileName, manifest_priority path root fileName)
            ∈ found_manifests path (os_walk path)) as Hfound.
    { apply found_manifests_elem. by exists root, dirNames, fileNames, fileName. }
    destruct (found_manifests path (os_walk path)) as [|m l]; [by apply elem_of_nil in Hfound|].
    simpl in Hsorted.
    destruct (insert_by_priority_head m (sorted_by_priority l)) as [l' Hhead].
    by rewrite Hhead in Hsorted.
  - split; [|done]. intros Hnone.
    apply sorted_by_priority_head in Hsorted as (pre & post & Hfound & _).
    assert ((manifest, priority) ∈ found_manifests path (os_walk path)) as Hin.
    { rewrite Hfound. apply elem_of_app. right. apply list_elem_of_here. }
    apply found_manifests_elem in Hin
      as (root & dirNames & fileNames & fileName & Hin & Hfile & Hprefix & _).
    rewrite (Hnone _ _ _ _ Hin Hfile) in Hprefix. done.
Qed.

(** X10. The manifest [LocalUpload] takes is the first one found, in the
    order of the walk, among those of the highest priority: every manifest
    found before it has a lower priority, and none found after it has a
    higher one. *)
Theorem first_manifest_of_highest_priority
    (name path found_name manifestPath : string) :
  LocalUpload_locate (Some name) path = Return (found_name, manifestPath) →
  found_name = name
  ∧ ∃ earlier manifest priority later,
      found_manifests path (os_walk path)
      = earlier ++ (manifest, priority) :: later
      ∧ manifestPath = os_path_abspath manifest
      ∧ Forall (λ m, m.2 < priority) earlier
      ∧ Forall (λ m, m.2 ≤ priority) later.
Proof.
  unfold LocalUpload_locate. case_bool_decide as Hname; [done|].
  destruct (sorted_by_priority (found_manifests path (os_walk path)))
    as [|[manifest priority] rest] eqn:Hsorted; [done|].
  intros [= <- <-]. split; [done|].
  apply sorted_by_priority_head in Hsorted as (pre & post & Hfound & Hpre & Hpost).
  by exists pre, manifest, priority, post.
Qed.

Lemma manifest_priority_bounds (path root fileName : string) :
  manifest_priority path root fileName ≤ 111
  ∧ (manifest_priority path root fileName = 111
     → root = path ∧ fileName = "manifest.json")
  ∧ (100 < manifest_priority path root fileName ↔ root = path).
Proof.
  unfold manifest_priority.
  destruct (bool_decide_reflect (root = path));
    destruct (bool_decide_reflect (fileName = "manifest.json"));
    repeat split; try lia; try done.
Qed.

(** X11. A [manifest.json] in the directory of the application itself is
    the manifest that is taken, whatever else is found: with a name that is
    not empty, and [os.walk] yielding that directory with [manifest.json]
    among its files, the manifest path is the absolute path of
    [os.path.join(path, "manifest.json")]. *)
Theorem root_manifest_json_wins
    (name path : string) (dirNames fileNames : list string) :
  name ≠ "" →
  (path, dirNames, fileNames) ∈ os_walk path →
  "manifest.json" ∈ fileNames →
  LocalUpload_locate (Some name) path
  = Return (name, os_path_abspath (os_path_join path "manifest.json")).
Proof.
  intros Hname Hwalk Hfile.
  assert ((os_path_join path "manifest.json", 111)
          ∈ found_manifests path (os_walk path)) as Hfound.
  { apply found_manifests_elem. exists path, dirNames, fileNames, "manifest.json".
    repeat split; try done. unfold manifest_priority.
    by rewrite !bool_decide_eq_true_2. }
  unfold LocalUpload_locate. rewrite bool_decide_eq_false_2 by done.
  destruct (sorted_by_priority (found_manifests path (os_walk path)))
    as [|[manifest priority] rest] eqn:Hsorted.
  - destruct (found_manifests path (os_walk path)) as [|m l]; [by apply elem_of_nil in Hfound|].
    simpl in Hsorted.
    destruct (insert_by_priority_head m (sorted_by_priority l)) as [l' Hhead].
    by rewrite Hhead in Hsorted.
  - apply sorted_by_priority_head in Hsorted as (pre & post & Hall & Hpre & Hpost).
    assert ((manifest, priority) ∈ found_manifests path (os_walk path)) as Hchosen.
    { rewrite Hall. apply elem_of_app. right. apply list_elem_of_here. }
    apply found_manifests_elem in Hchosen
      as (root & dirs & files & fileName & _ & _ & _ & [= -> ->]).
    destruct (manifest_priority_bounds path root fileName) as (Hle & Hmax & _).
    assert (111 ≤ manifest_priority path root fileName) as Hge.
    { rewrite Hall in Hfound. apply elem_of_app in Hfound as [Hin|Hin].
      - rewrite Forall_forall in Hpre. apply Hpre in Hin. simpl in Hin. lia.
      - apply elem_of_cons in Hin as [Heq|Hin].
        + pose proof (f_equal snd Heq) as Hk. cbn [snd] in Hk. lia.
        + rewrite Forall_forall in Hpost. by apply Hpost in Hin. }
    destruct Hmax as [-> ->]; [lia|]. done.
Qed.

(** X12. A manifest in the directory of the application beats every
    manifest below it, [manifest.json] or not: when [os.walk] yields that
    directory with a file whose name starts with [manifest], the manifest
    that is taken is a file of that directory. *)
Theorem root_manifest_beats_nested
    (name path : string) (dirNames fileNames : list string) (fileName : string) :
  name ≠ "" →
  (path, dirNames, fileNames) ∈ os_walk path →
  fileName ∈ fileNames →
  String.prefix "manifest" fileName = true →
  ∃ dirNames' fileNames' taken,
    (path, dirNames', fileNames') ∈ os_walk path
    ∧ taken ∈ fileNames'
    ∧ String.prefix "manifest" taken = true
    ∧ LocalUpload_locate (Some name) path
      = Return (name, os_path_abspath (os_path_join path taken)).
Proof.
  intros Hname Hwalk Hfile Hprefix.
  assert ((os_path_join path fileName, manifest_priority path path fileName)
          ∈ found_manifests path (os_walk path)) as Hfound.
  { apply found_manifests_elem. by exists path, dirNames, fileNames, fileName. }
  unfold LocalUpload_locate. rewrite bool_decide_eq_false_2 by done.
  destruct (sorted_by_priority (found_manifests path (os_walk path)))
    as [|[manifest priority] rest] eqn:Hsorted.
  - destruct (found_manifests path (os_walk path)) as [|m l]; [by apply elem_of_nil in Hfound|].
    simpl in Hsorted.
    destruct (insert_by_priority_head m (sorted_by_priority l)) as [l' Hhead].
    by rewrite Hhead in Hsorted.
  - apply sorted_by_priority_head in Hsorted as (pre & post & Hall & Hpre & Hpost).
    assert ((manifest, priority) ∈ found_manifests path (os_walk path)) as Hchosen.
    { rewrite Hall. apply elem_of_app. right. apply list_elem_of_here. }
    apply found_manifests_elem in Hchosen
      as (root & dirs & files & taken & Hin' & Hfile' & Hprefix' & [= -> ->]).
    assert (manifest_priority path path fileName
            ≤ manifest_priority path root taken) as Hge.
    { rewrite Hall in Hfound. apply elem_of_app in Hfound as [Hin|Hin].
      - rewrite Forall_forall in Hpre. apply Hpre in Hin. simpl in Hin. lia.
      - apply elem_of_cons in Hin as [Heq|Hin].
        + pose proof (f_equal snd Heq) as Hk. cbn [snd] in Hk. lia.
        + rewrite Forall_forall in Hpost. by apply Hpost in Hin. }
    assert (root = path) as ->.
    { destruct (manifest_priority_bounds path path fileName) as (_ & _ & Hroot).
      destruct (manifest_priority_bounds path root taken) as (_ & _ & Htaken).
      apply Htaken. pose proof (proj2 Hroot eq_refl). lia. }
    by exists dirs, files, taken.
Qed.

End LocalUploadProperties.

(** * Properties of [UploadRemote]: the name taken from the URL *)

Lemma string_app_cons (c : ascii) (s t : string) :
  String c s +:+ t = String c (s +:+ t).
Proof. reflexivity. Qed.

Lemma string_app_nil_l (t : string) : "" +:+ t = t.
Proof. reflexivity. Qed.

Lemma string_app_nil_r (s : string) : s +:+ "" = s.
Proof.
  induction s as [|c s IH]; [done|]. by rewrite string_app_cons, IH.
Qed.

Lemma string_app_cons_assoc (p : string) (c : ascii) (s : string) :
  p +:+ String c s = (p +:+ String c "") +:+ s.
Proof.
  induction p as [|c' p IH]; [done|]. by rewrite !string_app_cons, IH.
Qed.

Lemma string_length_app (p s : string) :
  String.length (p +:+ s) = String.length p + String.length s.
Proof.
  induction p as [|c p IH]; [done|]. rewrite string_app_cons. simpl. by rewrite IH.
Qed.

Lemma consumed_app (p s : string) : consumed (p +:+ s) s = p.
Proof.
  unfold consumed. rewrite string_length_app.
  replace (String.length p + String.length s - String.length s)
    with (String.length p) by lia.
  induction p as [|c p IH].
  - rewrite string_app_nil_l. by destruct s.
  - rewrite string_app_cons. simpl. by rewrite IH.
Qed.

Lemma consumed_all (s : string) : consumed s "" = s.
Proof.
  pose proof (consumed_app s "") as Happ. by rewrite string_app_nil_r in Happ.
Qed.

Lemma dot_star_greedy_to_end {A : Type} (s : string) (k : string → option A) (a : A) :
  has_char newline s = false →
  k "" = Some a →
  dot_star_greedy s k = Some a.
Proof.
  intros Hs Hk. induction s as [|c s IH]; simpl; [done|].
  simpl in Hs. apply orb_false_iff in Hs as [Hc Hs].
  rewrite Hc. by rewrite IH.
Qed.

(** What follows the group [name] in the pattern matches what is left of
    the subject when nothing is left or a dot comes next. *)
Lemma tail_match (subject t : string) (groups : gmap string string) :
  has_char newline t = false →
  re_match subject
    (re_seq (re_opt (re_group "2" (re_seq (re_char ".") (re_dot_star true)))) re_end)
    t groups (λ _ groups', Some groups')
  = match t with
    | "" => Some groups
    | String c _ =>
        if bool_decide (c = "."%char) then Some (<["2" := t]> groups) else None
    end.
Proof.
  intros Ht. destruct t as [|c t]; [done|].
  simpl in Ht. apply orb_false_iff in Ht as [Hc Ht].
  cbn [re_match]. destruct (bool_decide_reflect (c = "."%char)) as [->|Hdot].
  - rewrite (dot_star_greedy_to_end t _ (<["2" := String "." t]> groups)); try done.
    rewrite bool_decide_eq_true_2 by (by left).
    by rewrite consumed_all.
  - rewrite bool_decide_eq_false_2; [done|].
    intros [?|[= -> _]]; [done|]. by apply bool_decide_eq_false_1 in Hc.
Qed.

Lemma dot_star_lazy_name (subject s p : string) (groups : gmap string string) :
  has_char newline s = false →
  ∃ groups',
    dot_star_lazy s
      (λ s', re_match subject
               (re_seq (re_opt (re_group "2" (re_seq (re_char ".") (re_dot_star true))))
                       re_end)
               s' (<["name" := consumed (p +:+ s) s']> groups)
               (λ _ groups', Some groups'))
    = Some groups'
    ∧ groups' !! "name" = Some (p +:+ before_dot s).
Proof.
  revert p. induction s as [|c s IH]; intros p Hs.
  - cbn [dot_star_lazy]. rewrite tail_match by done.
    eexists. split; [done|].
    cbn [before_dot]. by rewrite lookup_insert_eq, consumed_app, string_app_nil_r.
  - cbn [dot_star_lazy]. rewrite tail_match by done.
    simpl in Hs. apply orb_false_iff in Hs as [Hc Hs].
    cbn [before_dot]. destruct (bool_decide_reflect (c = "."%char)) as [->|Hdot].
    + eexists. split; [done|].
      rewrite lookup_insert_ne by done.
      by rewrite lookup_insert_eq, consumed_app, string_app_nil_r.
    + rewrite Hc.
      destruct (IH (p +:+ String c "") Hs) as (groups' & Hmatch & Hname).
      exists groups'. split.
      * rewrite <- Hmatch. f_equal.
        by rewrite <- string_app_cons_assoc.
      * by rewrite Hname, <- string_app_cons_assoc.
Qed.

Lemma dot_star_greedy_no_slash {A : Type} (s : string) (k : string → option A) :
  has_char "/" s = false →
  (∀ s', k s' ≠ None → ∃ rest, s' = String "/" rest) →
  dot_star_greedy s k = None.
Proof.
  intros Hs Hk.
  assert (∀ s', has_char "/" s' = false → k s' = None) as Hnone.
  { intros s' Hs'. destruct (k s') eqn:Hks; [|done].
    destruct (Hk s') as [rest ->]; [by rewrite Hks|]. done. }
  induction s as [|c s IH]; simpl; [by apply Hnone|].
  pose proof Hs as Hs'. simpl in Hs'. apply orb_false_iff in Hs' as [_ Hs'].
  rewrite (IH Hs'), (Hnone _ Hs). by destruct (bool_decide (c = newline)).
Qed.

Lemma dot_star_greedy_last_slash {A : Type}
    (pre last : string) (k : string → option A) (a : A) :
  has_char newline pre = false →
  has_char "/" last = false →
  (∀ s', k s' ≠ None → ∃ rest, s' = String "/" rest) →
  k (String "/" last) = Some a →
  dot_star_greedy (pre +:+ String "/" last) k = Some a.
Proof.
  intros Hpre Hlast Hk Ha. induction pre as [|c pre IH].
  - rewrite string_app_nil_l. simpl.
    by rewrite (dot_star_greedy_no_slash last k Hlast Hk).
  - simpl in Hpre. apply orb_false_iff in Hpre as [Hc Hpre].
    rewrite string_app_cons. simpl. by rewrite Hc, (IH Hpre).
Qed.

Lemma name_rx_guarded (subject : string) (s' : string) :
  re_match subject
    (re_seq (re_char "/")
       (re_seq (re_group "name" (re_dot_star false))
          (re_seq (re_opt (re_group "2" (re_seq (re_char ".") (re_dot_star true))))
             re_end)))
    s' ∅ (λ _ groups, Some groups) ≠ None →
  ∃ rest, s' = String "/" rest.
Proof.
  destruct s' as [|c rest]; cbn [re_match]; [done|].
  destruct (bool_decide_reflect (c = "/"%char)) as [->|?]; [|done].
  by exists rest.
Qed.

(** X13. Without a name in its configuration, [UploadRemote] names the
    application after the URL: the name is what stands between the last
    slash of the URL and the first dot after it, or the end of the URL.  The
    name is not checked: it is empty when the URL ends with its last slash
    or a dot follows it. *)
Theorem name_from_url (name : option string) (pre last : string) :
  name = None ∨ name = Some "" →
  has_char newline pre = false →
  has_char newline last = false →
  has_char "/" last = false →
  UploadRemote_init name (Some (pre +:+ String "/" last))
  = Return (before_dot last, pre +:+ String "/" last).
Proof.
  intros Hname Hpre Hnl Hlast.
  assert (∃ groups, rx_match name_rx (pre +:+ String "/" last) = Some groups
                    ∧ groups !! "name" = Some (before_dot last))
    as (groups & Hmatch & Hgroup).
  { destruct (dot_star_lazy_name (pre +:+ String "/" last) last "" ∅ Hnl)
      as (groups & Hlazy & Hgroup).
    exists groups. split; [|done].
    unfold rx_match, name_rx. cbn [re_match].
    rewrite bool_decide_eq_true_2 by done.
    apply (dot_star_greedy_last_slash pre last _ groups Hpre Hlast).
    - apply (name_rx_guarded (pre +:+ String "/" last)).
    - cbn [re_match]. rewrite bool_decide_eq_true_2 by done. exact Hlazy. }
  unfold UploadRemote_init.
  destruct Hname as [-> | ->]; destruct pre as [|c pre];
    rewrite ?string_app_nil_l, ?string_app_cons in *; by rewrite Hmatch, Hgroup.
Qed.

(** X14. A URL without a slash does not match the pattern: without a name
    in the configuration, the constructor ends with the [AttributeError] of
    [match.group] on [None]. *)
Theorem url_without_slash (name : option string) (c : ascii) (url : string) :
  name = None ∨ name = Some "" →
  has_char "/" (String c url) = false →
  UploadRemote_init name (Some (String c url))
  = Raise (AttributeError "'NoneType' object has no attribute 'group'").
Proof.
  intros Hname Hurl.
  assert (rx_match name_rx (String c url) = None) as Hmatch.
  { unfold rx_match, name_rx. cbn [re_match].
    rewrite bool_decide_eq_true_2 by done.
    apply dot_star_greedy_no_slash; [done|].
    apply (name_rx_guarded (String c url)). }
  unfold UploadRemote_init. by destruct Hname as [-> | ->]; rewrite Hmatch.
Qed.

(** * Properties of the proxy action [Stop] *)

Section ProxyProperties.

Variable read_pidfile : PidRead.
Variable os_kill : nat → option Exception.
Variable pidfile_exists : bool.
Variable os_remove : option Exception.

Local Abbreviation Stop_loop := (Stop_loop os_kill).
Local Abbreviation Stop_execute :=
  (Stop_execute read_pidfile os_kill pidfile_exists os_remove).
Local Abbreviation process_found_gone :=
  (process_found_gone read_pidfile os_kill pidfile_exists os_remove).

Ltac not_logged H :=
  repeat (apply elem_of_cons in H as [H|H]; [discriminate H|]);
  by apply elem_of_nil in H.

Lemma Stop_loop_spec (remaining elapsed : nat) :
  match Stop_loop remaining elapsed with
  | (n, None) =>
      n = elapsed + remaining
      ∧ ∀ j, j < remaining → os_kill (elapsed + j) = None
  | (n, Some err) =>
      ∃ k, k < remaining
           ∧ n = elapsed + k + 1
           ∧ os_kill (elapsed + k) = Some err
           ∧ ∀ j, j < k → os_kill (elapsed + j) = None
  end.
Proof.
  revert elapsed. induction remaining as [|remaining IH]; intros elapsed; simpl.
  - split; [lia|]. intros j Hj. lia.
  - destruct (os_kill elapsed) as [err|] eqn:Hkill.
    + exists 0. rewrite Nat.add_0_r. repeat split; [lia|lia|done|]. intros j Hj. lia.
    + specialize (IH (S elapsed)).
      destruct (Stop_loop remaining (S elapsed)) as [n [err|]].
      * destruct IH as (k & Hk & -> & Herr & Hbefore).
        exists (S k). repeat split; [lia|lia| |].
        -- by replace (elapsed + S k) with (S elapsed + k) by lia.
        -- intros [|j] Hj; [by rewrite Nat.add_0_r|].
           replace (elapsed + S j) with (S elapsed + j) by lia.
           apply Hbefore. lia.
      * destruct IH as [-> Hnone]. split; [lia|].
        intros [|j] Hj; [by rewrite Nat.add_0_r|].
        replace (elapsed + S j) with (S elapsed + j) by lia.
        apply Hnone. lia.
Qed.

(** X15. [Stop] sends at most 60 signals, whatever the system answers, and
    none at all unless it read a pid that is not zero from the pid file. *)
Theorem Stop_signals_bounded :
  kills Stop_execute ≤ 60
  ∧ (0 < kills Stop_execute → ∃ pid, read_pidfile = PidRead_ok pid ∧ pid ≠ 0%Z).
Proof.
  unfold Stop_execute.
  destruct read_pidfile as [|err|pid]; [simpl; split; lia..|].
  destruct pid as [|pid|pid]; [simpl; split; lia| |].
  all: pose proof (Stop_loop_spec 60 0) as Hloop;
    destruct (Stop_loop 60 0) as [n [err|]];
    [destruct Hloop as (k & Hk & -> & _);
     repeat case_match; simpl; (split; [lia|]; intros _; by eexists)
    |destruct Hloop as [-> _]; simpl; (split; [lia|]; intros _; by eexists)].
Qed.

(** X16. When the process does not go away, [Stop] gives up without a word:
    with a pid that is not zero and 60 calls of [os.kill] that all succeed,
    [execute] returns normally after the 60th, having logged neither [OK]
    nor [FAIL], and the pid file is left where it is. *)
Theorem Stop_gives_up_silently (pid : Z) :
  read_pidfile = PidRead_ok pid →
  pid ≠ 0%Z →
  (∀ j, j < 60 → os_kill j = None) →
  Stop_execute
  = mkProxyRun [log_info "Stopping cocaine proxy... "] 60 false (Return tt).
Proof.
  intros Hread Hpid Hkill. unfold Stop_execute. rewrite Hread.
  pose proof (Stop_loop_spec 60 0) as Hloop.
  destruct (Stop_loop 60 0) as [n [err|]].
  - destruct Hloop as (k & Hk & _ & Herr & _).
    rewrite Hkill in Herr by done. done.
  - destruct Hloop as [-> _]. by destruct pid.
Qed.

(** X17. [Stop] logs [OK] exactly when it read a pid that is not zero, the
    first call of [os.kill] that raised, one of the 60, raised an [OSError]
    whose text has [No such process] in it, but not at its start, and the
    pid file, if there is one, could be removed.  It has then called
    [os.kill] up to that call and no further, the pid file is gone, and
    [execute] returns normally. *)
Theorem Stop_reports_ok :
  (log_info "OK" ∈ logged Stop_execute ↔ ∃ k, process_found_gone k)
  ∧ ∀ k, process_found_gone k →
      Stop_execute
      = mkProxyRun [log_info "Stopping cocaine proxy... "; log_info "OK"]
                   (S k) pidfile_exists (Return tt).
Proof.
  assert (∀ k, process_found_gone k →
            Stop_execute
            = mkProxyRun [log_info "Stopping cocaine proxy... "; log_info "OK"]
                         (S k) pidfile_exists (Return tt)) as Hrun.
  { intros k (pid & err & text & Hread & Hpid & Hk & Hbefore & Herr
               & Hclass & Htext & Hfind & Hremove).
    unfold Stop_execute. rewrite Hread.
    pose proof (Stop_loop_spec 60 0) as Hloop.
    destruct (Stop_loop 60 0) as [n [err'|]].
    - destruct Hloop as (k' & Hk' & -> & Herr' & Hbefore').
      simpl in Herr'.
      assert (k' = k) as ->.
      { destruct (Nat.lt_trichotomy k' k) as [Hlt|[Heq|Hgt]]; [|done|].
        - rewrite (Hbefore _ Hlt) in Herr'. done.
        - pose proof (Hbefore' _ Hgt) as Hnone. simpl in Hnone.
          rewrite Hnone in Herr. done. }
      rewrite Herr in Herr'. injection Herr' as <-.
      rewrite Hclass, Htext, bool_decide_eq_true_2 by done.
      replace (0 + k + 1) with (S k) by lia.
      destruct pidfile_exists; [rewrite Hremove by done|]; by destruct pid.
    - destruct Hloop as [_ Hnone]. specialize (Hnone k Hk). simpl in Hnone.
      rewrite Hnone in Herr. done. }
  split; [|exact Hrun]. split.
  - unfold Stop_execute. intros Hok.
    destruct read_pidfile as [|err|pid] eqn:Hread.
    + simpl in Hok. not_logged Hok.
    + simpl in Hok. not_logged Hok.
    + assert (pid ≠ 0%Z) as Hpid.
      { intros ->. simpl in Hok. not_logged Hok. }
      pose proof (Stop_loop_spec 60 0) as Hloop.
      destruct (Stop_loop 60 0) as [n [err|]];
        [|destruct pid; simpl in Hok; not_logged Hok].
      destruct Hloop as (k & Hk & -> & Herr & Hbefore).
      destruct (is_OSError err) eqn:Hclass;
        [|destruct pid; simpl in Hok; not_logged Hok].
      destruct (str err) as [text|err'] eqn:Htext;
        [|destruct pid; simpl in Hok; not_logged Hok].
      destruct (bool_decide_reflect (0 < find text "No such process")%Z) as [Hfind|Hfind];
        [|destruct pid; simpl in Hok; not_logged Hok].
      exists k, pid, err, text. repeat split; try done.
      intros Hexists. rewrite Hexists in Hok.
      destruct os_remove; [|done]. destruct pid; simpl in Hok; not_logged Hok.
  - intros [k Hgone]. rewrite (Hrun k Hgone). simpl.
    apply list_elem_of_further, list_elem_of_here.
Qed.

End ProxyProperties.

(** * The further theorems at concrete inputs *)

Lemma only_invoke_registers_witness :
  ∃ e, Some (RPC_INVOKE 7 "e") = Some (RPC_INVOKE 7 e)
       ∧ (example_sandbox e (length (requests example_worker)) 7).2 = None
       ∧ 0 = length (requests example_worker).
Proof.
  apply (only_invoke_registers example_sandbox sound_request
           example_worker (Some (RPC_INVOKE 7 "e")) 7 0); reflexivity.
Defined.

Lemma other_sessions_untouched_witness :
  ∃ w0, __init__ example_args 0 = Return w0
        ∧ let w := calls example_sandbox broken_request
                     [(1, call_on_message (Some (RPC_INVOKE 7 "e")));
                      (2, call_on_message (Some (RPC_INVOKE 8 "e")))] w0 in
          sessions w !! 7%N = Some 0
          ∧ requests (on_message example_sandbox broken_request
                        (Some (RPC_CHOKE 8)) w).1 !! 0
            = requests w !! 0.
Proof.
  eexists. split; [reflexivity|]. split; [reflexivity|].
  apply (other_sessions_untouched example_sandbox broken_request
           example_args 0 _
           [(1, call_on_message (Some (RPC_INVOKE 7 "e")));
            (2, call_on_message (Some (RPC_INVOKE 8 "e")))]
           (Some (RPC_CHOKE 8)) 7 0); [reflexivity|reflexivity|discriminate].
Defined.


Lemma closed_session_ignored_witness :
  ∃ w1 w2, on_message example_sandbox sound_request (Some (RPC_CHOKE 7)) serving_worker
           = (w1, Return tt)
           ∧ on_message example_sandbox sound_request (Some (RPC_CHUNK 7 [])) w1
             = (w2, Return tt)
           ∧ only_logged w1 w2.
Proof.
  destruct (closed_session_ignored example_sandbox sound_request
              serving_worker 7 0 (RPC_CHUNK 7 []))
    as (w1 & w2 & Hchoke & _ & Hchunk & Hlog); [reflexivity..|].
  by exists w1, w2.
Defined.

Lemma no_manifest_is_an_error_witness :
  LocalUpload_locate example_abspath bare_walk (Some "app") "app"
  = Raise (ToolsError ("No manifest file found in " +:+ dquote
                       +:+ "/srv/app" +:+ dquote +:+ " or subdirectories")).
Proof.
  apply (no_manifest_is_an_error example_abspath bare_walk "app" "app").
  - discriminate.
  - intros root dirNames fileNames fileName Hin Hfile.
    apply list_elem_of_singleton in Hin. injection Hin as -> -> ->.
    apply elem_of_cons in Hfile as [->|Hfile]; [reflexivity|].
    apply list_elem_of_singleton in Hfile as ->. reflexivity.
Defined.

Lemma first_manifest_of_highest_priority_witness :
  ∃ earlier manifest priority later,
    found_manifests "app" (example_walk "app")
    = earlier ++ (manifest, priority) :: later
    ∧ "/srv/app/manifest.json" = example_abspath manifest
    ∧ Forall (λ m, m.2 < priority) earlier
    ∧ Forall (λ m, m.2 ≤ priority) later.
Proof.
  apply (first_manifest_of_highest_priority example_abspath example_walk
           "demo" "app" "demo" "/srv/app/manifest.json").
  reflexivity.
Defined.

Lemma root_manifest_json_wins_witness :
  LocalUpload_locate example_abspath example_walk (Some "demo") "app"
  = Return ("demo", "/srv/app/manifest.json").
Proof.
  apply (root_manifest_json_wins example_abspath example_walk "demo" "app"
           ["conf"] ["README"; "manifest-dev.json"; "manifest.json"]).
  - discriminate.
  - apply list_elem_of_here.
  - apply list_elem_of_further, list_elem_of_further, list_elem_of_here.
Defined.

Lemma root_manifest_beats_nested_witness :
  ∃ taken, String.prefix "manifest" taken = true
           ∧ LocalUpload_locate example_abspath example_walk (Some "demo") "app"
             = Return ("demo", example_abspath (os_path_join "app" taken)).
Proof.
  destruct (root_manifest_beats_nested example_abspath example_walk "demo" "app"
              ["conf"] ["README"; "manifest-dev.json"; "manifest.json"]
              "manifest-dev.json")
    as (dirNames' & fileNames' & taken & _ & _ & Hprefix & Hlocate).
  - discriminate.
  - apply list_elem_of_here.
  - apply list_elem_of_further, list_elem_of_here.
  - reflexivity.
  - by exists taken.
Defined.

Lemma name_from_url_witness :
  UploadRemote_init None (Some "git://host/app.git")
  = Return ("app", "git://host/app.git").
Proof.
  apply (name_from_url None "git://host" "app.git");
    [left; reflexivity|reflexivity..].
Defined.

Lemma url_without_slash_witness :
  UploadRemote_init (Some "") (Some "app.git")
  = Raise (AttributeError "'NoneType' object has no attribute 'group'").
Proof.
  apply (url_without_slash (Some "") "a" "pp.git");
    [right; reflexivity|reflexivity].
Defined.

Lemma Stop_gives_up_silently_witness :
  Stop_execute (PidRead_ok 4242) (λ _, None) true None
  = mkProxyRun [log_info "Stopping cocaine proxy... "] 60 false (Return tt).
Proof.
  apply (Stop_gives_up_silently (PidRead_ok 4242) (λ _, None) true None 4242);
    [reflexivity|discriminate|reflexivity].
Defined.

Lemma Stop_reports_ok_witness :
  Stop_execute (PidRead_ok 4242) gone_at_third_signal true None
  = mkProxyRun [log_info "Stopping cocaine proxy... "; log_info "OK"]
               3 true (Return tt).
Proof.
  apply (Stop_reports_ok (PidRead_ok 4242) gone_at_third_signal true None).
  exists 4242%Z, (mkException "OSError" "[Errno 3] No such process"),
    "[Errno 3] No such process".
  repeat split; try reflexivity; try discriminate; try lia.
  intros [|[|j]] Hj; [reflexivity|reflexivity|lia].
Defined.
